(** * The request queue of [aedis::connection]

    A shallow embedding of the queue-handling members of the class template
    [aedis::connection] (connection.hpp): [close], [req_info], [on_write],
    [add_request], [make_req_info], [release_req_info] and
    [coalesce_requests], together with the properties the design document
    states about them.

    Conventions of the embedding.
    - [std::size_t] is a [Z] in [0, 2^64); arithmetic on it wraps and the
      wrap-around is written out ([size_t_wrap]).
    - [std::string] is [string]; [std::deque] and [std::vector] are lists
      whose back is the last element.
    - A [std::shared_ptr<req_info>] is an index into the list [objects] of
      all [req_info] objects ever made by [std::make_shared]; the queue and
      the pool hold such indices, so two holders of the same pointer see the
      same object.
    - [resp3::request const*] points to a request the caller owns and that
      is constant while it is queued; it is represented by [option request],
      [None] being [nullptr].
    - Undefined behaviour (dereferencing a null pointer, an iterator outside
      the container), a failing [BOOST_ASSERT] and the exception of
      [deque::at] are results of the type [fault]: every member function is
      a function into [result].
    - Asio timers and channels are represented by what the queue code
      observes of them: the expiry and the number of wait operations still
      pending. *)

From Stdlib Require Import ZArith String Ascii.
From stdpp Require Import base tactics option list sorting strings.

Local Open Scope Z_scope.

(** ** Results of fallible code *)

Inductive fault : Type :=
  | NullSocket        (* socket_ dereferenced while nullptr *)
  | NullReqInfo       (* a shared_ptr<req_info> that owns no object *)
  | NullRequest       (* req_info::req dereferenced while nullptr *)
  | AssertionFailure  (* BOOST_ASSERT *)
  | OutOfRange        (* std::out_of_range thrown by deque::at *)
  | EmptyContainer    (* front() or back() of an empty container *)
  | BadIterator.      (* an iterator past the end of the container *)

Inductive result (A : Type) : Type :=
  | Ok (a : A)
  | Fault (f : fault).
Arguments Ok {A} a.
Arguments Fault {A} f.

#[global] Instance result_ret : MRet result := λ A a, Ok a.
#[global] Instance result_bind : MBind result := λ A B k m,
  match m with
  | Ok a => k a
  | Fault f => Fault f
  end.

Definition boost_assert (b : bool) : result unit :=
  if b then Ok tt else Fault AssertionFailure.

Definition from_option {A} (f : fault) (o : option A) : result A :=
  match o with
  | Some a => Ok a
  | None => Fault f
  end.

(** ** Machine integers and time points *)

Definition size_t_modulus : Z := 2 ^ 64.
Definition size_t_wrap (z : Z) : Z := z mod size_t_modulus.
Definition is_size_t (z : Z) : Prop := 0 <= z < size_t_modulus.

(** [std::chrono::steady_clock::time_point]: a signed 64-bit tick count. *)
Definition time_point : Type := Z.
Definition time_point_max : time_point := 2 ^ 63 - 1.
Definition time_point_min : time_point := - 2 ^ 63.

(** ** Asio objects *)

(** [boost::asio::steady_timer]: its expiry and the number of [async_wait]
    operations that have not completed yet. *)
Record steady_timer : Type := mk_timer {
  expiry : time_point;
  pending : nat
}.

(** A timer constructed from an executor only: expiry at the epoch. *)
Definition timer_ctor : steady_timer := mk_timer 0 0.

(** [cancel()]: every pending wait completes with [operation_aborted]; the
    return value is the number of waits cancelled. *)
Definition timer_cancel (t : steady_timer) : steady_timer * nat :=
  (mk_timer (expiry t) 0, pending t).

(** [cancel_one()]: the oldest pending wait, if any, completes with
    [operation_aborted]. *)
Definition timer_cancel_one (t : steady_timer) : steady_timer * nat :=
  (mk_timer (expiry t) (Nat.pred (pending t)), Nat.min 1 (pending t)).

(** [expires_at(tp)]: sets the expiry; pending waits are cancelled. *)
Definition timer_expires_at (t : steady_timer) (tp : time_point)
  : steady_timer * nat :=
  (mk_timer tp 0, pending t).

(** [boost::asio::experimental::channel]: the number of asynchronous
    operations waiting on it. *)
Record channel : Type := mk_channel {
  chan_waiting : nat
}.

Definition channel_ctor : channel := mk_channel 0.
Definition channel_cancel (ch : channel) : channel := mk_channel 0.

(** The stream behind [socket_]. *)
Record stream : Type := mk_stream {
  is_open : bool
}.

Definition stream_close (s : stream) : stream := mk_stream false.

(** ** Requests *)

(** [resp3::request] as the connection reads it: [payload()] and
    [commands()]. *)
Record request : Type := mk_request {
  payload : string;
  commands : Z
}.

(** ** [connection::config] *)

(** The member [coalesce_requests] of the configuration is named
    [coalesce_requests_enabled] here, the member function of the connection
    keeping the name [coalesce_requests]. *)
Record config : Type := mk_config {
  resolve_timeout : Z;
  connect_timeout : Z;
  read_timeout : Z;
  ping_interval : Z;
  max_read_size : Z;
  coalesce_requests_enabled : bool
}.

(** The default member initialisers (durations in milliseconds). *)
Definition config_default : config :=
  mk_config 5000 5000 5000 5000 (size_t_modulus - 1) true.

(** ** [connection::req_info] *)

Record req_info : Type := mk_req_info {
  timer : steady_timer;
  req : option request;
  n_cmds : Z;
  stop : bool
}.

(** [std::make_shared<req_info>(steady_timer{ex})]: the default member
    initialisers. *)
Definition req_info_ctor : req_info := mk_req_info timer_ctor None 0 false.

Definition expects_response (e : req_info) : bool :=
  negb (n_cmds e =? 0).

Definition pop (e : req_info) : result req_info :=
  _ ← boost_assert (negb (n_cmds e =? 0));
  Ok (mk_req_info (timer e) (req e) (size_t_wrap (n_cmds e - 1)) (stop e)).

Definition set_timer (t : steady_timer) (e : req_info) : req_info :=
  mk_req_info t (req e) (n_cmds e) (stop e).
Definition set_req (r : option request) (e : req_info) : req_info :=
  mk_req_info (timer e) r (n_cmds e) (stop e).
Definition set_n_cmds (n : Z) (e : req_info) : req_info :=
  mk_req_info (timer e) (req e) n (stop e).
Definition set_stop (b : bool) (e : req_info) : req_info :=
  mk_req_info (timer e) (req e) (n_cmds e) b.

(** ** The connection *)

(** A [std::shared_ptr<req_info>]. *)
Abbreviation req_ptr := nat.

(** The data members the queue code reads or writes.  The resolver, the
    resolved endpoints and the handshake request [req_] are left out: none
    of the functions below touches them. *)
Record connection : Type := mk_connection {
  socket_ : option stream;
  ping_timer_ : steady_timer;
  check_idle_timer_ : steady_timer;
  writer_timer_ : steady_timer;
  read_channel_ : channel;
  push_channel_ : channel;
  cfg_ : config;
  read_buffer_ : string;
  payload_ : string;
  cmds_ : Z;
  reqs_ : list req_ptr;
  pool_ : list req_ptr;
  last_data_ : time_point;
  objects : list req_info
}.

Definition set_socket_ (x : option stream) (c : connection) : connection :=
  mk_connection x (ping_timer_ c) (check_idle_timer_ c) (writer_timer_ c)
    (read_channel_ c) (push_channel_ c) (cfg_ c) (read_buffer_ c)
    (payload_ c) (cmds_ c) (reqs_ c) (pool_ c) (last_data_ c) (objects c).
Definition set_ping_timer_ (x : steady_timer) (c : connection) : connection :=
  mk_connection (socket_ c) x (check_idle_timer_ c) (writer_timer_ c)
    (read_channel_ c) (push_channel_ c) (cfg_ c) (read_buffer_ c)
    (payload_ c) (cmds_ c) (reqs_ c) (pool_ c) (last_data_ c) (objects c).
Definition set_check_idle_timer_ (x : steady_timer) (c : connection)
  : connection :=
  mk_connection (socket_ c) (ping_timer_ c) x (writer_timer_ c)
    (read_channel_ c) (push_channel_ c) (cfg_ c) (read_buffer_ c)
    (payload_ c) (cmds_ c) (reqs_ c) (pool_ c) (last_data_ c) (objects c).
Definition set_writer_timer_ (x : steady_timer) (c : connection)
  : connection :=
  mk_connection (socket_ c) (ping_timer_ c) (check_idle_timer_ c) x
    (read_channel_ c) (push_channel_ c) (cfg_ c) (read_buffer_ c)
    (payload_ c) (cmds_ c) (reqs_ c) (pool_ c) (last_data_ c) (objects c).
Definition set_read_channel_ (x : channel) (c : connection) : connection :=
  mk_connection (socket_ c) (ping_timer_ c) (check_idle_timer_ c)
    (writer_timer_ c) x (push_channel_ c) (cfg_ c) (read_buffer_ c)
    (payload_ c) (cmds_ c) (reqs_ c) (pool_ c) (last_data_ c) (objects c).
Definition set_push_channel_ (x : channel) (c : connection) : connection :=
  mk_connection (socket_ c) (ping_timer_ c) (check_idle_timer_ c)
    (writer_timer_ c) (read_channel_ c) x (cfg_ c) (read_buffer_ c)
    (payload_ c) (cmds_ c) (reqs_ c) (pool_ c) (last_data_ c) (objects c).
Definition set_payload_ (x : string) (c : connection) : connection :=
  mk_connection (socket_ c) (ping_timer_ c) (check_idle_timer_ c)
    (writer_timer_ c) (read_channel_ c) (push_channel_ c) (cfg_ c)
    (read_buffer_ c) x (cmds_ c) (reqs_ c) (pool_ c) (last_data_ c)
    (objects c).
Definition set_cmds_ (x : Z) (c : connection) : connection :=
  mk_connection (socket_ c) (ping_timer_ c) (check_idle_timer_ c)
    (writer_timer_ c) (read_channel_ c) (push_channel_ c) (cfg_ c)
    (read_buffer_ c) (payload_ c) x (reqs_ c) (pool_ c) (last_data_ c)
    (objects c).
Definition set_reqs_ (x : list req_ptr) (c : connection) : connection :=
  mk_connection (socket_ c) (ping_timer_ c) (check_idle_timer_ c)
    (writer_timer_ c) (read_channel_ c) (push_channel_ c) (cfg_ c)
    (read_buffer_ c) (payload_ c) (cmds_ c) x (pool_ c) (last_data_ c)
    (objects c).
Definition set_pool_ (x : list req_ptr) (c : connection) : connection :=
  mk_connection (socket_ c) (ping_timer_ c) (check_idle_timer_ c)
    (writer_timer_ c) (read_channel_ c) (push_channel_ c) (cfg_ c)
    (read_buffer_ c) (payload_ c) (cmds_ c) (reqs_ c) x (last_data_ c)
    (objects c).
Definition set_objects (x : list req_info) (c : connection) : connection :=
  mk_connection (socket_ c) (ping_timer_ c) (check_idle_timer_ c)
    (writer_timer_ c) (read_channel_ c) (push_channel_ c) (cfg_ c)
    (read_buffer_ c) (payload_ c) (cmds_ c) (reqs_ c) (pool_ c)
    (last_data_ c) x.

(** The constructor: every IO object is made from the executor, [socket_]
    is a null [shared_ptr], the writer timer never expires and no data has
    been received yet. *)
Definition connection_ctor (cfg : config) : connection :=
  mk_connection None timer_ctor timer_ctor
    (fst (timer_expires_at timer_ctor time_point_max))
    channel_ctor channel_ctor cfg EmptyString EmptyString 0 [] [] time_point_min [].

(** *** Access to the objects behind the shared pointers *)

(** [*p] *)
Definition deref (c : connection) (p : req_ptr) : result req_info :=
  from_option NullReqInfo (objects c !! p).

(** An assignment through [p->]. *)
Definition update (p : req_ptr) (f : req_info → req_info) (c : connection)
  : result connection :=
  e ← deref c p;
  Ok (set_objects (<[p := f e]> (objects c)) c).

(** [p->req->...] *)
Definition deref_req (c : connection) (p : req_ptr) : result request :=
  e ← deref c p;
  from_option NullRequest (req e).

(** [front()] and [back()] of a deque or vector. *)
Definition front {A} (l : list A) : result A :=
  from_option EmptyContainer (head l).
Definition back {A} (l : list A) : result A :=
  from_option EmptyContainer (last l).

(** [std::for_each] with a fallible body over a list of elements. *)
Fixpoint for_each {A S} (body : A → S → result S) (l : list A) (s : S)
  : result S :=
  match l with
  | [] => Ok s
  | x :: l' => s' ← body x s; for_each body l' s'
  end.

(** ** [make_req_info] and [release_req_info] *)

Definition make_req_info (c : connection) : connection * req_ptr :=
  match last (pool_ c) with
  | None =>
      (set_objects (objects c ++ [req_info_ctor]) c, length (objects c))
  | Some ret =>
      (set_pool_ (removelast (pool_ c)) c, ret)
  end.

Definition release_req_info (info : req_ptr) (c : connection) : connection :=
  set_pool_ (pool_ c ++ [info]) c.

(** ** [add_request] *)

Definition add_request (r : request) (c : connection) : result connection :=
  let '(c, p) := make_req_info c in
  let c := set_reqs_ (reqs_ c ++ [p]) c in
  b ← back (reqs_ c);
  c ← update b (λ e,
        set_timer (fst (timer_expires_at (timer e) time_point_max)) e) c;
  b ← back (reqs_ c);
  c ← update b (set_req (Some r)) c;
  b ← back (reqs_ c);
  c ← update b (set_n_cmds (commands r)) c;
  b ← back (reqs_ c);
  c ← update b (set_stop false) c;
  if bool_decide (socket_ c ≠ None) && (cmds_ c =? 0)
     && bool_decide (payload_ c = EmptyString)
  then Ok (set_writer_timer_ (fst (timer_cancel (writer_timer_ c))) c)
  else Ok c.

(** ** [on_write] *)

(** The predicate of the partition: [ptr->req->commands() != 0]. *)
Definition commands_nonzero (c : connection) (p : req_ptr) : result bool :=
  r ← deref_req c p;
  Ok (negb (commands r =? 0)).

(** The two groups [std::stable_partition] forms, each in its original
    order. *)
Fixpoint partition_groups {A} (pred : A → result bool) (l : list A)
  : result (list A * list A) :=
  match l with
  | [] => Ok ([], [])
  | x :: l' =>
      b ← pred x;
      g ← partition_groups pred l';
      Ok (if b : bool then (x :: g.1, g.2) else (g.1, x :: g.2))
  end.

(** [std::stable_partition(begin, begin + last, pred)]: the container after
    the call and the partition point. *)
Definition stable_partition {A} (pred : A → result bool) (last : nat)
    (l : list A) : result (list A * nat) :=
  g ← partition_groups pred (take last l);
  Ok (g.1 ++ g.2 ++ drop last l, length g.1).

(** The elements of the iterator range [[first, last)]. *)
Definition range {A} (first last : nat) (l : list A) : list A :=
  take (last - first) (drop first l).

(** [erase(first, last)] *)
Definition erase {A} (first last : nat) (l : list A) : list A :=
  take first l ++ drop last l.

(** [end] is the position of the iterator the writer passes: [begin + end]. *)
Definition on_write (end_ : nat) (c : connection) : result connection :=
  if bool_decide (end_ ≤ length (reqs_ c))%nat then
    let c := set_payload_ EmptyString c in
    sp ← stable_partition (commands_nonzero c) end_ (reqs_ c);
    let c := set_reqs_ sp.1 c in
    let point := sp.2 in
    c ← for_each (λ ptr c,
           update ptr (λ e, set_timer (fst (timer_cancel (timer e))) e) c)
         (range point end_ (reqs_ c)) c;
    Ok (set_reqs_ (erase point end_ (reqs_ c)) c)
  else Fault BadIterator.

(** ** [coalesce_requests] *)

(** The body of the loop at index [i], run for [n] more iterations. *)
Fixpoint coalesce_loop (n : nat) (i : nat) (c : connection)
  : result connection :=
  match n with
  | O => Ok c
  | S n' =>
      p ← from_option OutOfRange (reqs_ c !! i);
      r ← deref_req c p;
      let c := set_payload_ (payload_ c +:+ payload r) c in
      p ← from_option OutOfRange (reqs_ c !! i);
      r ← deref_req c p;
      let c := set_cmds_ (size_t_wrap (cmds_ c + commands r)) c in
      coalesce_loop n' (S i) c
  end.

Definition coalesce_requests (c : connection) : result connection :=
  _ ← boost_assert (bool_decide (payload_ c = EmptyString));
  _ ← boost_assert (negb (bool_decide (reqs_ c = [])));
  let size :=
    if coalesce_requests_enabled (cfg_ c) then length (reqs_ c) else 1%nat in
  coalesce_loop size 0 c.

(** ** [close] *)

(** [now] is the value of [std::chrono::steady_clock::now()]. *)
Definition close (now : time_point) (c : connection) : result connection :=
  s ← from_option NullSocket (socket_ c);
  let c := set_socket_ (Some (stream_close s)) c in
  let c := set_cmds_ 0 c in
  let c := set_payload_ EmptyString c in
  let c := set_read_channel_ (channel_cancel (read_channel_ c)) c in
  let c := set_push_channel_ (channel_cancel (push_channel_ c)) c in
  let c := set_check_idle_timer_
             (fst (timer_expires_at (check_idle_timer_ c) now)) c in
  let c := set_writer_timer_ (fst (timer_cancel (writer_timer_ c))) c in
  let c := set_ping_timer_ (fst (timer_cancel (ping_timer_ c))) c in
  c ← for_each (λ e c,
         c ← update e (set_stop true) c;
         update e (λ x, set_timer (fst (timer_cancel_one (timer x))) x) c)
       (reqs_ c) c;
  Ok (set_reqs_ [] c).

(** ** [decrement_head] *)

(** Modelled from the spec: the reader's step after each top-level response
    (it lives in connection_ops.hpp, which is not among the sources).  The
    design document says of it: "invoked by C4 after each top-level
    response; when it hits zero, the head is removed and its wakeup fired
    with success."  The decrement itself is [req_info::pop]. *)
Definition decrement_head (c : connection) : result connection :=
  p ← front (reqs_ c);
  e ← deref c p;
  e ← pop e;
  c ← update p (λ _, e) c;
  if n_cmds e =? 0 then
    let c := set_reqs_ (tail (reqs_ c)) c in
    update p (λ x, set_timer (fst (timer_cancel (timer x))) x) c
  else Ok c.

(** ** Well-formed connections *)

(** A shared pointer that owns an object. *)
Definition valid_ptr (c : connection) (p : req_ptr) : bool :=
  bool_decide (p < length (objects c))%nat.

(** A shared pointer to an entry whose [req] has been set. *)
Definition has_request (c : connection) (p : req_ptr) : bool :=
  match objects c !! p with
  | Some e => bool_decide (req e ≠ None)
  | None => false
  end.

(** The queue holds entries that went through [add_request]; the pool holds
    pointers that own an object. *)
Definition wf (c : connection) : bool :=
  forallb (has_request c) (reqs_ c) && forallb (valid_ptr c) (pool_ c).

(** The entry [add_request] leaves at the back of the queue. *)
Definition enqueued (r : request) : req_info :=
  mk_req_info (mk_timer time_point_max 0) (Some r) (commands r) false.

(** ** Views of a connection used in the statements *)

(** The request behind a queued pointer: [p->req], when both pointers are
    non-null. *)
Definition request_of (c : connection) (p : req_ptr) : option request :=
  e ← objects c !! p; req e.

(** The queue holds, front to back, entries for the requests [rs]. *)
Definition queue_holds (c : connection) (rs : list request) : Prop :=
  Forall2 (λ p r, request_of c p = Some r) (reqs_ c) rs.

(** [p->req->commands() != 0], false where a pointer is null. *)
Definition awaits_response (c : connection) (p : req_ptr) : bool :=
  match request_of c p with
  | Some r => negb (commands r =? 0)
  | None => false
  end.

(** The payloads of some requests, one after the other. *)
Definition concat_payloads (rs : list request) : string :=
  foldr (λ r s, payload r +:+ s) EmptyString rs.

(** The sum of their command counts. *)
Definition sum_commands (rs : list request) : Z :=
  foldr (λ r n, commands r + n) 0 rs.

(** The objects after a loop that updates one pointer per iteration. *)
Definition alter_all (f : req_info → req_info) (l : list req_ptr)
    (h : list req_info) : list req_info :=
  foldl (λ h p, alter f p h) h l.

(** What [on_write] does to the timer of an entry it removes. *)
Definition cancel_wait (e : req_info) : req_info :=
  set_timer (fst (timer_cancel (timer e))) e.

(** What [close] does to an entry of the queue. *)
Definition abort_entry (e : req_info) : req_info :=
  let e := set_stop true e in
  set_timer (fst (timer_cancel_one (timer e))) e.

(** The pending-responses counter after the loop of [coalesce_requests] has
    added the command counts of [rs], one wrapping addition at a time. *)
Definition accumulate_commands (n : Z) (rs : list request) : Z :=
  foldl (λ n r, size_t_wrap (n + commands r)) n rs.

(** ** Sequences of queue operations *)

(** The operations that change the queue: [exec] enqueues, the writer calls
    [on_write] when a write has completed, the reader decrements the head
    after each response, and a finished [exec] hands its entry back to the
    pool. *)
Inductive queue_op : Type :=
  | Enqueue (r : request)
  | WriterCompletion (end_ : nat)
  | ReaderDecrement
  | Release (info : req_ptr).

Definition step (o : queue_op) (c : connection) : result connection :=
  match o with
  | Enqueue r => add_request r c
  | WriterCompletion end_ => on_write end_ c
  | ReaderDecrement => decrement_head c
  | Release info => Ok (release_req_info info c)
  end.

Definition run (ops : list queue_op) (c : connection) : result connection :=
  for_each step ops c.

(** The pointers the [Enqueue] operations of a run push, in the order of the
    calls. *)
Fixpoint enqueue_order (ops : list queue_op) (c : connection)
  : list req_ptr :=
  match ops with
  | [] => []
  | o :: ops' =>
      match step o c with
      | Ok c' =>
          match o with
          | Enqueue _ => (make_req_info c).2 :: enqueue_order ops' c'
          | _ => enqueue_order ops' c'
          end
      | Fault _ => []
      end
  end.

(** ** The bound of the design document's [coalesce(limit)] *)

(** The design document gives the coalescing operation a parameter [limit]
    and lets it take the entries [[0..k)] for some [k ≤ limit]: the
    outbound buffer would then be the payloads of at most [limit] entries
    from the front of the queue. *)
Definition within_limit (limit : nat) (rs : list request) (buffer : string)
  : Prop :=
  ∃ k, (k ≤ limit)%nat ∧ buffer = concat_payloads (take k rs).

(** ** Example requests and connections *)

Definition ping : request := mk_request "PING" 1.
Definition subscribe : request := mk_request "SUBSCRIBE" 0.
Definition get_set : request := mk_request "GET;SET" 2.

(** The state a run of operations leaves, for runs that complete. *)
Definition after (ops : list queue_op) (c : connection) : connection :=
  match run ops c with
  | Ok c' => c'
  | Fault _ => c
  end.

(** A connection on which [async_run] was never called. *)
Definition unconnected : connection := Eval vm_compute in
  connection_ctor config_default.

(** A connection with an open socket. *)
Definition connected : connection := Eval vm_compute in
  set_socket_ (Some (mk_stream true)) unconnected.

(** Three requests submitted back to back. *)
Definition three_queued : connection := Eval vm_compute in
  after [Enqueue ping; Enqueue subscribe; Enqueue get_set] connected.

(** The same with request coalescing switched off. *)
Definition three_queued_single : connection := Eval vm_compute in
  after [Enqueue ping; Enqueue subscribe; Enqueue get_set]
    (set_socket_ (Some (mk_stream true))
       (connection_ctor (mk_config 5000 5000 5000 5000 1024 false))).

(** Three requests whose submitters wait on their entries. *)
Definition three_awaited : connection := Eval vm_compute in
  set_objects
    (fmap (λ e, set_timer (mk_timer time_point_max 1) e)
       (objects three_queued))
    three_queued.

(** The writer waits on its timer. *)
Definition writer_waiting (c : connection) : connection :=
  set_writer_timer_ (mk_timer time_point_max 1) c.

(** A pool that holds an entry full of the state of its previous use. *)
Definition recycling : connection := Eval vm_compute in
  set_pool_ [0%nat]
    (set_objects [mk_req_info (mk_timer 5 1) (Some ping) 7 true] connected).

(** A pipeline of three requests, the write of the first two, the response
    to the first one, and its entry used again. *)
Definition pipeline : list queue_op :=
  [Enqueue ping; Enqueue subscribe; Enqueue get_set; WriterCompletion 2;
   ReaderDecrement; Release 0%nat; Enqueue ping].

(** ** Sequences of calls of the member functions *)

(** No shared pointer sits twice in the queue and the pool together: an
    entry is either queued once or pooled once. *)
Definition alias_free (c : connection) : Prop :=
  NoDup (reqs_ c ++ pool_ c).

(** [add_request] for each request in turn, as successive calls of
    [async_exec] make it. *)
Definition add_requests (rs : list request) (c : connection)
  : result connection :=
  for_each add_request rs c.

(** [pop] called [n] times on an entry. *)
Fixpoint pop_times (n : nat) (e : req_info) : result req_info :=
  match n with
  | O => Ok e
  | S n' => e' ← pop e; pop_times n' e'
  end.

(** A call of one of the member functions that write the queue. *)
Inductive member_call : Type :=
  | CallAddRequest (r : request)
  | CallCoalesceRequests
  | CallOnWrite (end_ : nat)
  | CallClose (now : time_point).

Definition call (m : member_call) (c : connection) : result connection :=
  match m with
  | CallAddRequest r => add_request r c
  | CallCoalesceRequests => coalesce_requests c
  | CallOnWrite end_ => on_write end_ c
  | CallClose now => close now c
  end.

Definition calls (ms : list member_call) (c : connection)
  : result connection :=
  for_each call ms c.

(** The number of entries [coalesce_requests] puts into one write. *)
Definition coalesced_size (c : connection) : nat :=
  if coalesce_requests_enabled (cfg_ c) then length (reqs_ c) else 1%nat.

(** A queued entry (pointer 1) next to a pooled one (pointer 0): two
    requests were submitted, the first of them response-free, the first was
    written and its entry handed back. *)
Definition one_queued_one_pooled : connection := Eval vm_compute in
  match calls [CallAddRequest subscribe; CallAddRequest get_set;
               CallOnWrite 1] connected with
  | Ok c => release_req_info 0%nat c
  | Fault _ => connected
  end.

(** Two requests submitted, coalesced and written, a third one submitted,
    the connection closed and a request submitted after that. *)
Definition session : list member_call :=
  [CallAddRequest ping; CallAddRequest subscribe; CallCoalesceRequests;
   CallOnWrite 2; CallAddRequest get_set; CallClose 7;
   CallAddRequest ping].

(** A request whose command count is the largest [size_t]. *)
Definition heavy : request := mk_request "MULTI" (size_t_modulus - 1).

(** ** The order of the [exec] calls *)

(** The log of the [Enqueue] operations of a run, in the order of the calls:
    the pointer each pushed together with the request it was given. *)
Fixpoint enqueue_log (ops : list queue_op) (c : connection)
  : list (req_ptr * request) :=
  match ops with
  | [] => []
  | o :: ops' =>
      match step o c with
      | Ok c' =>
          match o with
          | Enqueue r => ((make_req_info c).2, r) :: enqueue_log ops' c'
          | _ => enqueue_log ops' c'
          end
      | Fault _ => []
      end
  end.

(** The requests the [Enqueue] operations of a run submit, in the order of
    the calls. *)
Definition submitted (ops : list queue_op) : list request :=
  omap (λ o, match o with Enqueue r => Some r | _ => None end) ops.

(** The last call of a log that pushed [p]: its number, counted from [i],
    and the request it was given. *)
Fixpoint last_enqueue_from (i : nat) (log : list (req_ptr * request))
    (p : req_ptr) : option (nat * request) :=
  match log with
  | [] => None
  | (q, r) :: log' =>
      match last_enqueue_from (S i) log' p with
      | Some x => Some x
      | None => if decide (q = p) then Some (i, r) else None
      end
  end.

Definition last_enqueue (log : list (req_ptr * request)) (p : req_ptr)
  : option (nat * request) :=
  last_enqueue_from 0 log p.

(** The call that enqueued [p] came before the call that enqueued [q]. *)
Definition enqueued_before (log : list (req_ptr * request))
    (p q : req_ptr) : Prop :=
  match last_enqueue log p, last_enqueue log q with
  | Some (i, _), Some (j, _) => (i < j)%nat
  | _, _ => False
  end.

(** The queue is in the order of the calls of a log: every queued entry was
    pushed by a call of the log and holds the request of the last call that
    pushed it, and along the queue the numbers of those calls increase. *)
Definition queue_in_enqueue_order (log : list (req_ptr * request))
    (c : connection) : Prop :=
  StronglySorted (enqueued_before log) (reqs_ c)
  ∧ Forall (λ q, ∃ i r, last_enqueue log q = Some (i, r)
                        ∧ request_of c q = Some r) (reqs_ c).

(** What an operation needs to find: [on_write] an iterator inside the
    queue, the reader's decrement a front entry that still expects a
    response, [release_req_info] a pointer that owns an object and is
    neither queued nor pooled. *)
Definition admissible_step (o : queue_op) (c : connection) : bool :=
  match o with
  | Enqueue _ => true
  | WriterCompletion end_ => bool_decide (end_ ≤ length (reqs_ c))%nat
  | ReaderDecrement =>
      match head (reqs_ c) with
      | Some p =>
          match objects c !! p with
          | Some e => expects_response e
          | None => false
          end
      | None => false
      end
  | Release info =>
      valid_ptr c info && bool_decide (info ∉ reqs_ c ++ pool_ c)
  end.

(** The state an operation leaves (the state it found, had it faulted). *)
Definition next_state (o : queue_op) (c : connection) : connection :=
  match step o c with
  | Ok c' => c'
  | Fault _ => c
  end.

(** Every operation of a run finds what it needs in the state the
    operations before it have left. *)
Fixpoint admissible (ops : list queue_op) (c : connection) : bool :=
  match ops with
  | [] => true
  | o :: ops' => admissible_step o c && admissible ops' (next_state o c)
  end.

(** ** A request-level model of the queue *)

(** The queue as the requests it holds, with the outbound buffer and the
    pending-responses counter: no pointers, objects, pool or timers. *)
Record queue_model : Type := mk_model {
  model_queue : list request;
  model_payload : string;
  model_cmds : Z
}.

(** What a completed call does at the level of requests ([coalesce] is
    [cfg_.coalesce_requests]). *)
Definition model_call (coalesce : bool) (m : member_call) (a : queue_model)
  : queue_model :=
  match m with
  | CallAddRequest r =>
      mk_model (model_queue a ++ [r]) (model_payload a) (model_cmds a)
  | CallCoalesceRequests =>
      let k := if coalesce then length (model_queue a) else 1%nat in
      mk_model (model_queue a)
        (model_payload a +:+ concat_payloads (take k (model_queue a)))
        (accumulate_commands (model_cmds a) (take k (model_queue a)))
  | CallOnWrite end_ =>
      mk_model
        (filter (λ r, commands r ≠ 0) (take end_ (model_queue a))
         ++ drop end_ (model_queue a))
        EmptyString (model_cmds a)
  | CallClose _ => mk_model [] EmptyString 0
  end.

Definition model_calls (coalesce : bool) (ms : list member_call)
    (a : queue_model) : queue_model :=
  foldl (λ a m, model_call coalesce m a) a ms.

(** * Properties *)

(** ** The result monad *)

Lemma bind_Ok {A B} (k : A → result B) (a : A) : (Ok a ≫= k) = k a.
Proof. reflexivity. Qed.

Lemma bind_inv {A B} (k : A → result B) (m : result A) (b : B) :
  m ≫= k = Ok b → ∃ a, m = Ok a ∧ k a = Ok b.
Proof. destruct m as [a|f]; [eauto | discriminate]. Qed.

(** ** Updates through shared pointers *)

#[local] Arguments update : simpl never.

Lemma update_alter p f c :
  (p < length (objects c))%nat →
  update p f c = Ok (set_objects (alter f p (objects c)) c).
Proof.
  intros Hp. unfold update, deref.
  destruct (lookup_lt_is_Some_2 _ _ Hp) as [e He].
  rewrite He. cbn. do 2 f_equal.
  rewrite list_insert_alter.
  apply list_eq. intros i. rewrite !list_lookup_alter.
  case_decide; [subst i; by rewrite He |done].
Qed.

Lemma alter_all_cons f p l h :
  alter_all f (p :: l) h = alter_all f l (alter f p h).
Proof. reflexivity. Qed.

Lemma length_alter_all f l h : length (alter_all f l h) = length h.
Proof.
  revert h. induction l as [|p l IH]; intros h; [done|].
  rewrite alter_all_cons, IH. apply length_alter.
Qed.

Lemma for_each_alter (body : req_ptr → connection → result connection) f l c :
  (∀ p c, (p < length (objects c))%nat →
     body p c = Ok (set_objects (alter f p (objects c)) c)) →
  Forall (λ p, p < length (objects c))%nat l →
  for_each body l c = Ok (set_objects (alter_all f l (objects c)) c).
Proof.
  intros Hbody. revert c. induction l as [|p l IH]; intros c Hl.
  - by destruct c.
  - inversion_clear Hl as [|? ? Hp Hl']. cbn [for_each].
    rewrite Hbody by done. rewrite bind_Ok, IH.
    + rewrite alter_all_cons. by destruct c.
    + cbn. eapply Forall_impl; [exact Hl'|].
      intros q Hq. by rewrite length_alter.
Qed.

Lemma alter_all_lookup_notin f l h q :
  q ∉ l → alter_all f l h !! q = h !! q.
Proof.
  revert h. induction l as [|p l IH]; intros h Hq; [done|].
  apply not_elem_of_cons in Hq as [Hne Hq].
  rewrite alter_all_cons, IH by done. by apply list_lookup_alter_ne.
Qed.

Lemma alter_all_lookup_iter f l h q :
  ∃ k, (q ∈ l ↔ 0 < k)%nat ∧ alter_all f l h !! q = Nat.iter k f <$> h !! q.
Proof.
  revert h. induction l as [|p l IH]; intros h.
  - exists 0%nat. split; [|unfold alter_all; cbn; by destruct (h !! q)].
    split; [intros H; by apply elem_of_nil in H | lia].
  - rewrite alter_all_cons. destruct (IH (alter f p h)) as (k & Hk & Hlk).
    destruct (decide (p = q)) as [->|Hne].
    + exists (S k). split; [split; [lia | intros _; left]|].
      rewrite Hlk, list_lookup_alter_eq.
      destruct (h !! q); [|done].
      change (Some (Nat.iter k f (f r)) = Some (Nat.iter (S k) f r)).
      by rewrite Nat.iter_succ_r.
    + exists k. split.
      * rewrite <- Hk, elem_of_cons. split; [intros [?|?]; [congruence|done] | by right].
      * by rewrite Hlk, list_lookup_alter_ne.
Qed.

(** A function that each loop applies, possibly several times, to an
    object: once it has been applied, applying it again changes nothing. *)
Lemma alter_all_lookup_in f l h q :
  (∀ x, f (f x) = f x) →
  q ∈ l → alter_all f l h !! q = f <$> h !! q.
Proof.
  intros Hf Hq. destruct (alter_all_lookup_iter f l h q) as (k & Hk & ->).
  apply Hk in Hq. destruct k as [|k]; [lia|].
  destruct (h !! q) as [x|]; [|done].
  change (Some (Nat.iter (S k) f x) = Some (f x)). f_equal.
  clear Hk Hq. induction k as [|k IH]; [done|].
  rewrite Nat.iter_succ, IH. apply Hf.
Qed.

(** ** Well-formedness *)

Lemma wf_reqs c p :
  wf c = true → p ∈ reqs_ c →
  ∃ e r, objects c !! p = Some e ∧ req e = Some r.
Proof.
  unfold wf. intros [Hq _]%andb_prop Hp.
  rewrite forallb_forall in Hq. apply list_elem_of_In, Hq in Hp.
  unfold has_request in Hp. destruct (objects c !! p) as [e|]; [|done].
  apply bool_decide_eq_true in Hp. destruct (req e) as [r|] eqn:Hr; [|done].
  by exists e, r.
Qed.

Lemma wf_reqs_valid c :
  wf c = true → Forall (λ p, p < length (objects c))%nat (reqs_ c).
Proof.
  intros Hwf. apply Forall_forall. intros p Hp.
  destruct (wf_reqs c p Hwf Hp) as (e & _ & He & _).
  by eapply lookup_lt_Some.
Qed.

Lemma wf_pool c p :
  wf c = true → p ∈ pool_ c → (p < length (objects c))%nat.
Proof.
  unfold wf. intros [_ Hq]%andb_prop Hp.
  rewrite forallb_forall in Hq. apply list_elem_of_In, Hq in Hp.
  by apply bool_decide_eq_true in Hp.
Qed.

Lemma wf_queue_holds c : wf c = true → ∃ rs, queue_holds c rs.
Proof.
  intros Hwf. unfold queue_holds.
  assert (Forall (λ p, ∃ r, request_of c p = Some r) (reqs_ c)) as H.
  { apply Forall_forall. intros p Hp.
    destruct (wf_reqs c p Hwf Hp) as (e & r & He & Hr).
    exists r. unfold request_of. by rewrite He. }
  induction H as [|p l [r Hr] _ [rs IH]]; [by exists []|].
  exists (r :: rs). by constructor.
Qed.

Lemma queue_holds_valid c rs :
  queue_holds c rs → Forall (λ p, p < length (objects c))%nat (reqs_ c).
Proof.
  unfold queue_holds. intros H. apply Forall_forall. intros p Hp.
  apply list_elem_of_lookup in Hp as [i Hi].
  destruct (Forall2_lookup_l _ _ _ _ _ H Hi) as (r & _ & Hr).
  unfold request_of in Hr.
  destruct (objects c !! p) as [e|] eqn:He; [|done].
  by eapply lookup_lt_Some.
Qed.

(** ** [make_req_info] *)

Lemma make_req_info_valid c :
  wf c = true →
  ((make_req_info c).2 < length (objects (make_req_info c).1))%nat.
Proof.
  intros Hwf. unfold make_req_info.
  destruct (last (pool_ c)) as [ret|] eqn:Hlast; cbn.
  - apply (wf_pool c ret Hwf).
    apply last_Some in Hlast as [l' ->].
    apply elem_of_app. right. by left.
  - rewrite length_app. cbn. lia.
Qed.

Lemma make_req_info_reqs c : reqs_ (make_req_info c).1 = reqs_ c.
Proof. unfold make_req_info. by destruct (last (pool_ c)). Qed.

Lemma make_req_info_frame c :
  socket_ (make_req_info c).1 = socket_ c
  ∧ cmds_ (make_req_info c).1 = cmds_ c
  ∧ payload_ (make_req_info c).1 = payload_ c
  ∧ writer_timer_ (make_req_info c).1 = writer_timer_ c.
Proof. unfold make_req_info. by destruct (last (pool_ c)). Qed.

Lemma make_req_info_lookup c q :
  (q < length (objects c))%nat →
  objects (make_req_info c).1 !! q = objects c !! q.
Proof.
  intros Hq. unfold make_req_info. destruct (last (pool_ c)); cbn; [done|].
  by apply lookup_app_l.
Qed.

(** ** [add_request] *)

Lemma alter_to_insert {A} (f : A → A) (x : A) (p : nat) (l : list A) :
  (∀ e, f e = x) → alter f p l = <[p := x]> l.
Proof.
  intros Hf. rewrite list_insert_alter. apply list_eq. intros i.
  rewrite !list_lookup_alter. case_decide; [|done].
  destruct (l !! p); [|done]. cbn. by rewrite Hf.
Qed.

(** The four assignments through [reqs_.back()] amount to one store. *)
Lemma add_request_Ok r c :
  wf c = true →
  add_request r c =
  Ok ((if bool_decide (socket_ c ≠ None) && (cmds_ c =? 0)
          && bool_decide (payload_ c = EmptyString)
       then set_writer_timer_ (fst (timer_cancel (writer_timer_ c)))
       else id)
        (set_objects
           (<[(make_req_info c).2 := enqueued r]>
              (objects (make_req_info c).1))
           (set_reqs_ (reqs_ c ++ [(make_req_info c).2])
              (make_req_info c).1))).
Proof.
  intros Hwf. pose proof (make_req_info_valid c Hwf) as Hp.
  pose proof (make_req_info_reqs c) as Hreqs.
  destruct (make_req_info_frame c) as (Hs & Hc & Hpl & Hw).
  unfold add_request. destruct (make_req_info c) as [c1 p]. cbn in *.
  unfold back. cbn. rewrite Hreqs, last_snoc. cbn.
  rewrite update_alter by done. cbn. rewrite last_snoc. cbn.
  rewrite update_alter by (cbn; by rewrite length_alter).
  cbn. rewrite last_snoc. cbn.
  rewrite update_alter by (cbn; by rewrite !length_alter).
  cbn. rewrite last_snoc. cbn.
  rewrite update_alter by (cbn; by rewrite !length_alter). cbn.
  rewrite !list_alter_alter_eq, Hs, Hc, Hpl, Hw.
  rewrite (alter_to_insert _ (enqueued r)) by done.
  by destruct (bool_decide (socket_ c ≠ None) && (cmds_ c =? 0)
               && bool_decide (payload_ c = EmptyString)).
Qed.

(** ** Fields that assignments through a shared pointer leave alone *)

Lemma update_inv p f c c' :
  update p f c = Ok c' → c' = set_objects (objects c') c.
Proof.
  unfold update. intros (e & _ & H)%bind_inv. by injection H as <-.
Qed.

Lemma for_each_frame (body : req_ptr → connection → result connection) l :
  (∀ p c c', body p c = Ok c' → c' = set_objects (objects c') c) →
  ∀ c c', for_each body l c = Ok c' → c' = set_objects (objects c') c.
Proof.
  intros Hbody. induction l as [|p l IH]; intros c c' H; cbn in H.
  - injection H as <-. by destruct c.
  - apply bind_inv in H as (c1 & H1 & H2).
    apply Hbody in H1. apply IH in H2. rewrite H2, H1. reflexivity.
Qed.

(** ** [std::stable_partition], iterator ranges and [erase] *)

Lemma partition_groups_length {A} (pred : A → result bool) l g :
  partition_groups pred l = Ok g → (length g.1 + length g.2 = length l)%nat.
Proof.
  revert g. induction l as [|x l IH]; intros g H; cbn in H.
  - by injection H as <-.
  - apply bind_inv in H as (b & _ & H).
    apply bind_inv in H as (g' & Hg' & H). apply IH in Hg'.
    injection H as <-. destruct b; cbn; lia.
Qed.

Lemma partition_groups_sublist {A} (pred : A → result bool) l g :
  partition_groups pred l = Ok g → g.1 `sublist_of` l.
Proof.
  revert g. induction l as [|x l IH]; intros g H; cbn in H.
  - injection H as <-. constructor.
  - apply bind_inv in H as (b & _ & H).
    apply bind_inv in H as (g' & Hg' & H). apply IH in Hg'.
    injection H as <-. destruct b; cbn; by constructor.
Qed.

Lemma partition_groups_filter {A} (pred : A → result bool) (f : A → bool) l :
  Forall (λ x, pred x = Ok (f x)) l →
  partition_groups pred l
  = Ok (filter (λ x, f x = true) l, filter (λ x, f x = false) l).
Proof.
  induction 1 as [|x l Hx _ IH]; [done|].
  cbn [partition_groups]. rewrite Hx, bind_Ok, IH, bind_Ok. cbn [fst snd].
  rewrite !filter_cons. destruct (f x); by repeat case_decide.
Qed.

Lemma range_middle {A} (l1 l2 l3 : list A) (last : nat) :
  (length l1 + length l2 = last)%nat →
  range (length l1) last (l1 ++ l2 ++ l3) = l2.
Proof.
  intros <-. unfold range. rewrite drop_app_length.
  replace (length l1 + length l2 - length l1)%nat with (length l2) by lia.
  apply take_app_length.
Qed.

Lemma erase_middle {A} (l1 l2 l3 : list A) (last : nat) :
  (length l1 + length l2 = last)%nat →
  erase (length l1) last (l1 ++ l2 ++ l3) = l1 ++ l3.
Proof.
  intros <-. unfold erase. rewrite take_app_length. f_equal.
  rewrite app_assoc, <- length_app. apply drop_app_length.
Qed.

(** ** [on_write] *)

Lemma commands_nonzero_awaits c p r :
  request_of c p = Some r →
  commands_nonzero (set_payload_ EmptyString c) p = Ok (awaits_response c p).
Proof.
  unfold commands_nonzero, deref_req, deref, awaits_response, request_of.
  cbn. destruct (objects c !! p) as [e|]; [|done]. cbn.
  intros ->. reflexivity.
Qed.

Lemma cancel_wait_update p c :
  (p < length (objects c))%nat →
  update p (λ e, set_timer (fst (timer_cancel (timer e))) e) c
  = Ok (set_objects (alter cancel_wait p (objects c)) c).
Proof. apply update_alter. Qed.

(** The queue and the objects after [on_write], when every queued entry
    holds a request. *)
Lemma on_write_Ok end_ c rs :
  queue_holds c rs →
  (end_ ≤ length (reqs_ c))%nat →
  on_write end_ c =
  Ok (set_reqs_
        (filter (λ p, awaits_response c p = true) (take end_ (reqs_ c))
         ++ drop end_ (reqs_ c))
        (set_objects
           (alter_all cancel_wait
              (filter (λ p, awaits_response c p = false)
                 (take end_ (reqs_ c)))
              (objects c))
           (set_payload_ EmptyString c))).
Proof.
  intros Hq Hle. pose proof (queue_holds_valid c rs Hq) as Hvalid.
  unfold on_write. rewrite bool_decide_eq_true_2 by done.
  unfold stable_partition. cbn [reqs_ set_payload_].
  set (yes := filter (λ p, awaits_response c p = true) (take end_ (reqs_ c))).
  set (no := filter (λ p, awaits_response c p = false) (take end_ (reqs_ c))).
  assert (partition_groups (commands_nonzero (set_payload_ EmptyString c))
            (take end_ (reqs_ c)) = Ok (yes, no)) as Hpg.
  { apply partition_groups_filter, Forall_forall. intros p Hp.
    apply elem_of_take in Hp as (i & Hi & _).
    destruct (Forall2_lookup_l _ _ _ _ _ Hq Hi) as (r & _ & Hr).
    eapply commands_nonzero_awaits, Hr. }
  rewrite Hpg, !bind_Ok. cbn [fst snd reqs_ set_reqs_].
  apply partition_groups_length in Hpg as Hlen.
  rewrite length_take in Hlen. cbn [fst snd] in Hlen.
  assert (length yes + length no = end_)%nat as Hlen' by lia.
  rewrite range_middle by done.
  rewrite (for_each_alter _ cancel_wait); cycle 1.
  { intros p c0 Hp. by apply cancel_wait_update. }
  { cbn. apply Forall_forall. intros p Hp.
    apply list_elem_of_filter in Hp as [_ Hp].
    apply elem_of_take in Hp as (i & Hi & _).
    rewrite Forall_forall in Hvalid. apply Hvalid.
    by eapply list_elem_of_lookup_2. }
  rewrite bind_Ok. cbn [reqs_ set_objects set_reqs_].
  rewrite erase_middle by done. reflexivity.
Qed.

(** What a completed [on_write] did, whatever the queue held. *)
Lemma on_write_inv end_ c c' :
  on_write end_ c = Ok c' →
  (end_ ≤ length (reqs_ c))%nat ∧ payload_ c' = EmptyString
  ∧ ∃ yes, yes `sublist_of` take end_ (reqs_ c)
           ∧ reqs_ c' = yes ++ drop end_ (reqs_ c).
Proof.
  unfold on_write. case_bool_decide as Hle; [|done]. intros H.
  apply bind_inv in H as ([l point] & Hsp & H).
  unfold stable_partition in Hsp.
  apply bind_inv in Hsp as ([yes no] & Hg & Hsp).
  cbn in Hg, Hsp. injection Hsp as <- <-.
  apply bind_inv in H as (c1 & H1 & H). injection H as <-.
  apply for_each_frame in H1; [|intros ? ? ?; apply update_inv].
  pose proof (partition_groups_length _ _ _ Hg) as Hlen.
  rewrite length_take in Hlen. cbn in Hlen.
  split; [done|]. rewrite H1. cbn. split; [done|].
  exists yes. split; [apply (partition_groups_sublist _ _ _ Hg)|].
  apply erase_middle. lia.
Qed.

(** ** Strings and wrapping sums *)

Lemma append_empty_r (s : string) : s +:+ EmptyString = s.
Proof.
  induction s as [|a s IH]; [done|].
  change (String a (s +:+ EmptyString) = String a s). by rewrite IH.
Qed.

Lemma append_assoc (s1 s2 s3 : string) :
  (s1 +:+ s2) +:+ s3 = s1 +:+ (s2 +:+ s3).
Proof.
  induction s1 as [|a s1 IH]; [done|].
  change (String a ((s1 +:+ s2) +:+ s3) = String a (s1 +:+ (s2 +:+ s3))).
  by rewrite IH.
Qed.

Lemma accumulate_commands_wrap n r rs :
  accumulate_commands n (r :: rs)
  = size_t_wrap (n + sum_commands (r :: rs)).
Proof.
  revert n r. induction rs as [|r' rs IH]; intros n r.
  - cbn. f_equal. lia.
  - change (accumulate_commands n (r :: r' :: rs))
      with (accumulate_commands (size_t_wrap (n + commands r)) (r' :: rs)).
    rewrite IH. unfold size_t_wrap.
    rewrite Zplus_mod_idemp_l. f_equal.
    change (sum_commands (r :: r' :: rs))
      with (commands r + sum_commands (r' :: rs)). lia.
Qed.

(** ** [coalesce_requests] *)

Lemma deref_req_Ok c p r : request_of c p = Some r → deref_req c p = Ok r.
Proof.
  unfold request_of, deref_req, deref.
  destruct (objects c !! p) as [e|]; [|done]. cbn. by intros ->.
Qed.

Lemma coalesce_loop_Ok rs n : ∀ i c,
  queue_holds c rs →
  (i + n ≤ length (reqs_ c))%nat →
  coalesce_loop n i c =
  Ok (set_cmds_ (accumulate_commands (cmds_ c) (take n (drop i rs)))
        (set_payload_
           (payload_ c +:+ concat_payloads (take n (drop i rs))) c)).
Proof.
  induction n as [|n IH]; intros i c Hq Hle.
  - cbn. rewrite append_empty_r. by destruct c.
  - destruct (lookup_lt_is_Some_2 (reqs_ c) i) as [p Hp]; [lia|].
    destruct (Forall2_lookup_l _ _ _ _ _ Hq Hp) as (r & Hr & Hreq).
    cbn [coalesce_loop]. rewrite Hp. cbn [from_option]. rewrite bind_Ok.
    rewrite (deref_req_Ok _ _ _ Hreq), bind_Ok.
    cbn [reqs_ set_payload_]. rewrite Hp. cbn [from_option].
    rewrite bind_Ok.
    rewrite (deref_req_Ok _ p r) by exact Hreq. rewrite bind_Ok.
    rewrite (IH (S i)); [| exact Hq | cbn; lia].
    rewrite (drop_S _ _ _ Hr). cbn. rewrite append_assoc. reflexivity.
Qed.

Lemma coalesce_requests_Ok c rs :
  queue_holds c rs →
  payload_ c = EmptyString →
  reqs_ c ≠ [] →
  coalesce_requests c =
  Ok (let k := if coalesce_requests_enabled (cfg_ c)
               then length (reqs_ c) else 1%nat in
      set_cmds_ (accumulate_commands (cmds_ c) (take k rs))
        (set_payload_ (concat_payloads (take k rs)) c)).
Proof.
  intros Hq Hpl Hne. unfold coalesce_requests.
  rewrite (bool_decide_eq_true_2 (payload_ c = EmptyString)) by done.
  cbn [boost_assert]. rewrite bind_Ok.
  rewrite (bool_decide_eq_false_2 (reqs_ c = [])) by done.
  cbn [boost_assert negb].
  rewrite bind_Ok. cbn zeta.
  rewrite (coalesce_loop_Ok rs); [| done |].
  - rewrite Hpl. cbn. reflexivity.
  - destruct (reqs_ c); [done|]. destruct coalesce_requests_enabled; cbn; lia.
Qed.

(** ** [close] *)

Lemma abort_entry_update p c :
  (p < length (objects c))%nat →
  (c ← update p (set_stop true) c;
   update p (λ x, set_timer (fst (timer_cancel_one (timer x))) x) c)
  = Ok (set_objects (alter abort_entry p (objects c)) c).
Proof.
  intros Hp. rewrite update_alter by done. rewrite bind_Ok.
  rewrite update_alter by (cbn; by rewrite length_alter).
  cbn. by rewrite list_alter_alter_eq.
Qed.

Lemma close_Ok now c s :
  socket_ c = Some s →
  Forall (λ p, p < length (objects c))%nat (reqs_ c) →
  close now c =
  Ok (mk_connection (Some (stream_close s))
        (fst (timer_cancel (ping_timer_ c)))
        (fst (timer_expires_at (check_idle_timer_ c) now))
        (fst (timer_cancel (writer_timer_ c)))
        (channel_cancel (read_channel_ c))
        (channel_cancel (push_channel_ c))
        (cfg_ c) (read_buffer_ c) EmptyString 0 [] (pool_ c) (last_data_ c)
        (alter_all abort_entry (reqs_ c) (objects c))).
Proof.
  intros Hs Hvalid. unfold close. rewrite Hs. cbn [from_option].
  rewrite bind_Ok. cbn zeta.
  rewrite (for_each_alter _ abort_entry).
  - reflexivity.
  - intros p c0 Hp. by apply abort_entry_update.
  - exact Hvalid.
Qed.

Lemma update_Fault p f c ft : update p f c = Fault ft → ft = NullReqInfo.
Proof.
  unfold update, deref. destruct (objects c !! p); cbn; congruence.
Qed.

Lemma for_each_Fault (body : req_ptr → connection → result connection) l :
  (∀ p c ft, body p c = Fault ft → ft = NullReqInfo) →
  ∀ c ft, for_each body l c = Fault ft → ft = NullReqInfo.
Proof.
  intros Hbody. induction l as [|p l IH]; intros c ft H; cbn in H; [done|].
  destruct (body p c) as [c1|ft1] eqn:Hb.
  - rewrite bind_Ok in H. by eapply IH.
  - cbn in H. injection H as <-. by eapply Hbody.
Qed.

Lemma close_Fault_NullSocket now c :
  close now c = Fault NullSocket ↔ socket_ c = None.
Proof.
  unfold close. destruct (socket_ c) as [s|]; cbn [from_option]; [|done].
  rewrite bind_Ok. cbn zeta. split; [|done]. intros H.
  match type of H with
  | (?m ≫= _) = _ => destruct m as [c1|ft] eqn:Hloop
  end; [done|].
  cbn in H. injection H as ->.
  apply for_each_Fault in Hloop; [done|].
  intros p c0 ft H.
  destruct (update p (set_stop true) c0) as [c1|ft1] eqn:Hu.
  - rewrite bind_Ok in H. by eapply update_Fault.
  - cbn in H. injection H as <-. by eapply update_Fault.
Qed.

(** An entry with at most one pending wait, once [close] has gone over it
    any positive number of times. *)
Lemma abort_entry_iter e k :
  (pending (timer e) ≤ 1)%nat → (0 < k)%nat →
  Nat.iter k abort_entry e
  = mk_req_info (mk_timer (expiry (timer e)) 0) (req e) (n_cmds e) true.
Proof.
  intros He Hk. destruct k as [|k]; [lia|]. clear Hk.
  induction k as [|k IH].
  - destruct e as [[ex pd] r n st]. cbn in *.
    by destruct pd as [|[|pd]]; [| |lia].
  - rewrite Nat.iter_succ, IH. reflexivity.
Qed.

(** ** [req_info::pop] and [decrement_head] *)

Lemma pop_Ok e :
  n_cmds e ≠ 0 →
  pop e = Ok (set_n_cmds (size_t_wrap (n_cmds e - 1)) e).
Proof.
  intros Hn. unfold pop. apply Z.eqb_neq in Hn. by rewrite Hn.
Qed.

Lemma decrement_head_inv c c' :
  decrement_head c = Ok c' →
  ∃ p l, reqs_ c = p :: l ∧ (reqs_ c' = p :: l ∨ reqs_ c' = l).
Proof.
  unfold decrement_head, front. intros H.
  apply bind_inv in H as (p & Hp & H).
  destruct (reqs_ c) as [|p' l] eqn:Hreqs; [done|]. cbn in Hp.
  injection Hp as ->. exists p, l. split; [done|].
  apply bind_inv in H as (e & _ & H).
  apply bind_inv in H as (e' & _ & H).
  apply bind_inv in H as (c1 & Hu & H).
  apply update_inv in Hu.
  destruct (n_cmds e' =? 0).
  - apply update_inv in H. right. rewrite H, Hu. cbn. by rewrite Hreqs.
  - injection H as <-. left. rewrite Hu. cbn. by rewrite Hreqs.
Qed.

(** ** What a completed [add_request] did to the queue *)

Lemma back_update_inv (f : req_info → req_info) c c' :
  (b ← back (reqs_ c); update b f c) = Ok c' →
  c' = set_objects (objects c') c.
Proof.
  intros (b & _ & H)%bind_inv. by apply update_inv in H.
Qed.

Lemma add_request_inv r c c' :
  add_request r c = Ok c' →
  reqs_ c' = reqs_ c ++ [(make_req_info c).2].
Proof.
  unfold add_request. pose proof (make_req_info_reqs c) as Hreqs.
  destruct (make_req_info c) as [c1 p]. cbn [fst snd] in *.
  intros H.
  apply bind_inv in H as (b1 & _ & H).
  apply bind_inv in H as (c2 & H2%update_inv & H).
  apply bind_inv in H as (b2 & _ & H).
  apply bind_inv in H as (c3 & H3%update_inv & H).
  apply bind_inv in H as (b3 & _ & H).
  apply bind_inv in H as (c4 & H4%update_inv & H).
  apply bind_inv in H as (b4 & _ & H).
  apply bind_inv in H as (c5 & H5%update_inv & H).
  assert (reqs_ c5 = reqs_ c ++ [p]) as Hq.
  { rewrite H5. cbn. rewrite H4. cbn. rewrite H3. cbn. rewrite H2. cbn.
    by rewrite Hreqs. }
  destruct (bool_decide (socket_ c5 ≠ None) && (cmds_ c5 =? 0)
            && bool_decide (payload_ c5 = EmptyString));
    injection H as <-; exact Hq.
Qed.

(** ** Runs *)

Lemma step_sublist o c c' :
  step o c = Ok c' →
  reqs_ c' `sublist_of`
    reqs_ c ++ match o with Enqueue _ => [(make_req_info c).2] | _ => [] end.
Proof.
  destruct o as [r|end_| |info]; cbn [step]; intros H.
  - apply add_request_inv in H. by rewrite H.
  - apply on_write_inv in H as (_ & _ & yes & Hyes & ->).
    rewrite app_nil_r. rewrite <- (take_drop end_ (reqs_ c)) at 2.
    by apply sublist_app.
  - apply decrement_head_inv in H as (p & l & -> & [-> | ->]);
      rewrite app_nil_r; [done|]. by constructor.
  - injection H as <-. cbn. by rewrite app_nil_r.
Qed.

Lemma run_sublist ops : ∀ c c',
  run ops c = Ok c' →
  reqs_ c' `sublist_of` reqs_ c ++ enqueue_order ops c.
Proof.
  unfold run. induction ops as [|o ops IH]; intros c c' H.
  - injection H as <-. by rewrite app_nil_r.
  - cbn [for_each] in H. apply bind_inv in H as (c1 & Hstep & H).
    apply IH in H. apply step_sublist in Hstep as Hsub.
    cbn [enqueue_order]. rewrite Hstep.
    etrans; [exact H|].
    destruct o; rewrite ?app_nil_r in Hsub;
      try (apply sublist_app; [exact Hsub | done]).
    rewrite (cons_middle _ (reqs_ c)), app_assoc.
    apply sublist_app; [exact Hsub | done].
Qed.

(** ** Well-formedness is preserved *)

Lemma wf_intro c :
  (∀ p, p ∈ reqs_ c → ∃ e, objects c !! p = Some e ∧ req e ≠ None) →
  (∀ p, p ∈ pool_ c → (p < length (objects c))%nat) →
  wf c = true.
Proof.
  intros Hq Hp. unfold wf. apply andb_true_intro. split.
  - apply forallb_forall. intros p Hin%list_elem_of_In.
    destruct (Hq p Hin) as (e & He & Hr). unfold has_request.
    rewrite He. by apply bool_decide_eq_true.
  - apply forallb_forall. intros p Hin%list_elem_of_In.
    apply bool_decide_eq_true. by apply Hp.
Qed.

Lemma wf_connection_ctor cfg : wf (connection_ctor cfg) = true.
Proof. reflexivity. Qed.

Lemma wf_alter_all f l c c' :
  (∀ e, req (f e) = req e) →
  wf c = true →
  objects c' = alter_all f l (objects c) →
  reqs_ c' ⊆ reqs_ c →
  pool_ c' = pool_ c →
  wf c' = true.
Proof.
  intros Hf Hwf Hobj Hreqs Hpool. apply wf_intro.
  - intros p Hp. apply Hreqs in Hp.
    destruct (wf_reqs c p Hwf Hp) as (e & r & He & Hr).
    destruct (alter_all_lookup_iter f l (objects c) p) as (k & _ & Hk).
    rewrite Hobj, Hk, He. eexists. split; [done|].
    assert (req (Nat.iter k f e) = req e) as ->; [|by rewrite Hr].
    clear Hk. induction k as [|k IH]; [done|].
    rewrite Nat.iter_succ, Hf. exact IH.
  - intros p Hp. rewrite Hpool in Hp.
    rewrite Hobj, length_alter_all. by apply wf_pool.
Qed.

Lemma wf_on_write end_ c c' :
  wf c = true → on_write end_ c = Ok c' → wf c' = true.
Proof.
  intros Hwf H. destruct (wf_queue_holds c Hwf) as [rs Hq].
  pose proof (on_write_inv _ _ _ H) as (Hle & _).
  rewrite (on_write_Ok end_ c rs Hq Hle) in H. injection H as <-.
  eapply (wf_alter_all cancel_wait); [done | exact Hwf | reflexivity | | done].
  cbn. intros p [Hp|Hp]%elem_of_app.
  - apply list_elem_of_filter in Hp as [_ Hp].
    by apply (sublist_subseteq _ _ (sublist_take _ _)) in Hp.
  - by apply (sublist_subseteq _ _ (sublist_drop _ _)) in Hp.
Qed.

Lemma wf_add_request r c c' :
  wf c = true → add_request r c = Ok c' → wf c' = true.
Proof.
  intros Hwf H. rewrite (add_request_Ok r c Hwf) in H.
  pose proof (make_req_info_valid c Hwf) as Hvalid.
  assert (reqs_ c' = reqs_ c ++ [(make_req_info c).2]
          ∧ objects c' = <[(make_req_info c).2 := enqueued r]>
                           (objects (make_req_info c).1)
          ∧ pool_ c' = pool_ (make_req_info c).1) as (Hr & Ho & Hp).
  { injection H as <-.
    by destruct (bool_decide (socket_ c ≠ None) && (cmds_ c =? 0)
                 && bool_decide (payload_ c = EmptyString)). }
  apply wf_intro.
  - intros q Hq. rewrite Hr in Hq. rewrite Ho.
    destruct (decide (q = (make_req_info c).2)) as [->|Hne].
    + rewrite list_lookup_insert_eq by done. by eexists.
    + rewrite list_lookup_insert_ne by done.
      apply elem_of_app in Hq as [Hq|Hq%list_elem_of_singleton]; [|done].
      destruct (wf_reqs c q Hwf Hq) as (e & r' & He & Hr').
      rewrite make_req_info_lookup by (by eapply lookup_lt_Some).
      exists e. split; [done|]. by rewrite Hr'.
  - intros q Hq. rewrite Ho, length_insert. rewrite Hp in Hq.
    revert Hq. unfold make_req_info.
    destruct (last (pool_ c)) as [ret|] eqn:Hlast; cbn.
    + intros Hq. apply (wf_pool c q Hwf).
      apply last_Some in Hlast as [l' Hl']. rewrite Hl' in Hq |- *.
      rewrite removelast_last in Hq. apply elem_of_app. by left.
    + intros Hq. rewrite length_app. pose proof (wf_pool c q Hwf Hq). lia.
Qed.

Lemma wf_release_req_info info c :
  wf c = true → (info < length (objects c))%nat →
  wf (release_req_info info c) = true.
Proof.
  intros Hwf Hinfo. apply wf_intro; cbn.
  - intros p Hp. destruct (wf_reqs c p Hwf Hp) as (e & r & He & Hr).
    exists e. split; [done|]. by rewrite Hr.
  - intros p [Hp|Hp%list_elem_of_singleton]%elem_of_app.
    + by apply wf_pool.
    + by subst p.
Qed.

Lemma wf_close now c c' : wf c = true → close now c = Ok c' → wf c' = true.
Proof.
  intros Hwf H. destruct (socket_ c) as [s|] eqn:Hs.
  - rewrite (close_Ok now c s Hs (wf_reqs_valid c Hwf)) in H.
    injection H as <-.
    eapply (wf_alter_all abort_entry); [done | exact Hwf | reflexivity | | done].
    cbn. by intros p Hp%elem_of_nil.
  - unfold close in H. by rewrite Hs in H.
Qed.

Lemma wf_coalesce_requests c c' :
  wf c = true → coalesce_requests c = Ok c' → wf c' = true.
Proof.
  intros Hwf H. destruct (wf_queue_holds c Hwf) as [rs Hq].
  destruct (decide (payload_ c = EmptyString)) as [Hpl|Hpl]; cycle 1.
  { unfold coalesce_requests in H.
    by rewrite (bool_decide_eq_false_2 (payload_ c = EmptyString)) in H. }
  destruct (decide (reqs_ c = [])) as [Hnil|Hne].
  { unfold coalesce_requests in H.
    rewrite (bool_decide_eq_true_2 (payload_ c = EmptyString)) in H by done.
    by rewrite (bool_decide_eq_true_2 (reqs_ c = [])) in H. }
  rewrite (coalesce_requests_Ok c rs Hq Hpl Hne) in H. injection H as <-.
  apply wf_intro; cbn.
  - intros p Hp. destruct (wf_reqs c p Hwf Hp) as (e & r & He & Hr).
    exists e. split; [done|]. by rewrite Hr.
  - intros p Hp. by apply wf_pool.
Qed.

(** * The claims of the design document *)

(** ** Coalescing *)

(** C1, as the code has it.  With a non-empty queue holding the requests
    [rs] and an empty outbound buffer, [coalesce_requests] succeeds; the
    outbound buffer becomes the payloads of the first [k] requests in queue
    order and the pending-responses counter grows by the sum of their
    command counts modulo 2^64 (by exactly the sum when that does not
    overflow), where [k] is the length of the whole queue when
    [coalesce_requests] is enabled and 1 when it is disabled.  There is no
    limit and no check that the bytes fit; the queue and the entries are
    left as they were. *)
Theorem coalesce_requests_whole_queue c rs :
  queue_holds c rs →
  payload_ c = EmptyString →
  reqs_ c ≠ [] →
  let k := if coalesce_requests_enabled (cfg_ c)
           then length (reqs_ c) else 1%nat in
  ∃ c', coalesce_requests c = Ok c'
    ∧ payload_ c' = concat_payloads (take k rs)
    ∧ cmds_ c' = size_t_wrap (cmds_ c + sum_commands (take k rs))
    ∧ (0 <= cmds_ c + sum_commands (take k rs) < size_t_modulus →
       cmds_ c' = cmds_ c + sum_commands (take k rs))
    ∧ reqs_ c' = reqs_ c ∧ objects c' = objects c.
Proof.
  intros Hq Hpl Hne k. eexists. split; [by apply coalesce_requests_Ok|].
  cbn zeta. fold k. cbn.
  assert (∃ r rs', take k rs = r :: rs') as (r & rs' & Hk).
  { pose proof (Forall2_length _ _ _ Hq) as Hlen.
    destruct (reqs_ c) as [|p l]; [done|]. destruct rs as [|r rs]; [done|].
    subst k. destruct coalesce_requests_enabled; cbn; eauto. }
  rewrite Hk, accumulate_commands_wrap.
  repeat split; try done.
  intros Hrange. unfold size_t_wrap. by apply Z.mod_small.
Qed.

Lemma coalesce_requests_whole_queue_witness :
  ∃ c', coalesce_requests three_queued = Ok c'
    ∧ payload_ c' = "PINGSUBSCRIBEGET;SET"%string
    ∧ cmds_ c' = 3
    ∧ (0 <= 3 < size_t_modulus → cmds_ c' = 3)
    ∧ reqs_ c' = reqs_ three_queued ∧ objects c' = objects three_queued.
Proof.
  apply (coalesce_requests_whole_queue three_queued [ping; subscribe; get_set]).
  - repeat constructor.
  - reflexivity.
  - discriminate.
Defined.

(** With coalescing switched off only the front entry is written. *)
Lemma coalesce_requests_disabled_example :
  ∃ c', coalesce_requests three_queued_single = Ok c'
    ∧ payload_ c' = "PING"%string ∧ cmds_ c' = 1.
Proof. eexists. by vm_compute. Qed.

(** C1, as the design document words it, fails: for the limit 1 and a queue
    of three requests the buffer is not made of at most one entry. *)
Lemma coalesce_requests_exceeds_limit :
  queue_holds three_queued [ping; subscribe; get_set]
  ∧ payload_ three_queued = EmptyString
  ∧ ∃ c', coalesce_requests three_queued = Ok c'
      ∧ payload_ c' = "PINGSUBSCRIBEGET;SET"%string
      ∧ ¬ within_limit 1 [ping; subscribe; get_set] (payload_ c').
Proof.
  split; [repeat constructor|]. split; [reflexivity|].
  eexists. split; [by vm_compute|]. split; [reflexivity|].
  intros (k & Hk & Hbuf). cbn in Hbuf.
  destruct k as [|[|k]]; [discriminate Hbuf | discriminate Hbuf | lia].
Qed.

(** ** A run of queue operations *)

(** The run [pipeline] on a connection with a socket: the response-free
    entry 1 and the answered entry 0 are gone, entry 0 is reused and queued
    behind entry 2. *)
Lemma pipeline_example :
  reqs_ (after pipeline connected) = [2; 0]%nat
  ∧ enqueue_order pipeline connected = [0; 1; 2; 0]%nat.
Proof. by vm_compute. Qed.

(** ** The writer's cleanup *)

Lemma cancel_wait_idemp e : cancel_wait (cancel_wait e) = cancel_wait e.
Proof. reflexivity. Qed.

(** C3.  After a write that covered the first [end_] entries, [on_write]
    succeeds and the queue consists of the covered entries whose request has
    a non-zero command count, in their order, followed by the entries that
    were not covered.  Every covered entry whose request has command count
    zero had its timer cancelled, so that no wait on it is pending any more,
    and nothing else of it changed; every other object is untouched. *)
Theorem on_write_removes_response_free end_ c rs :
  queue_holds c rs →
  (end_ ≤ length (reqs_ c))%nat →
  ∃ c', on_write end_ c = Ok c'
    ∧ reqs_ c' = filter (λ p, awaits_response c p = true)
                   (take end_ (reqs_ c)) ++ drop end_ (reqs_ c)
    ∧ (∀ p, p ∈ take end_ (reqs_ c) → awaits_response c p = false →
         ∃ e e', objects c !! p = Some e ∧ objects c' !! p = Some e'
                 ∧ pending (timer e') = 0%nat
                 ∧ e' = set_timer (mk_timer (expiry (timer e)) 0) e)
    ∧ (∀ p, ¬ (p ∈ take end_ (reqs_ c) ∧ awaits_response c p = false) →
         objects c' !! p = objects c !! p).
Proof.
  intros Hq Hle. eexists. split; [by eapply on_write_Ok|]. cbn.
  split; [done|]. split.
  - intros p Hp Hno.
    assert (p ∈ reqs_ c) as Hin
      by (by apply (sublist_subseteq _ _ (sublist_take _ _)) in Hp).
    pose proof (queue_holds_valid c rs Hq) as Hvalid.
    rewrite Forall_forall in Hvalid.
    destruct (lookup_lt_is_Some_2 _ _ (Hvalid p Hin)) as [e He].
    exists e, (cancel_wait e). split; [done|].
    rewrite alter_all_lookup_in; [by rewrite He | apply cancel_wait_idemp |].
    by apply list_elem_of_filter.
  - intros p Hp. apply alter_all_lookup_notin.
    intros Hin%list_elem_of_filter. apply Hp. by destruct Hin.
Qed.

Lemma on_write_removes_response_free_witness :
  ∃ c', on_write 2 three_awaited = Ok c'
    ∧ reqs_ c' = [0; 2]%nat
    ∧ (∀ p, p ∈ take 2 (reqs_ three_awaited) →
         awaits_response three_awaited p = false →
         ∃ e e', objects three_awaited !! p = Some e
                 ∧ objects c' !! p = Some e'
                 ∧ pending (timer e') = 0%nat
                 ∧ e' = set_timer (mk_timer (expiry (timer e)) 0) e)
    ∧ (∀ p, ¬ (p ∈ take 2 (reqs_ three_awaited)
               ∧ awaits_response three_awaited p = false) →
         objects c' !! p = objects three_awaited !! p).
Proof.
  apply (on_write_removes_response_free 2 three_awaited
           [ping; subscribe; get_set]).
  - repeat constructor.
  - vm_compute. lia.
Defined.

(** C9.  In every well-formed state and for every position [end_] inside
    the queue, [on_write] succeeds and leaves the outbound buffer empty; it
    changes neither the socket nor the pending-responses counter, so that
    the next [add_request] cancels the writer timer as soon as a socket
    exists and no response is pending. *)
Theorem on_write_clears_payload end_ c :
  wf c = true →
  (end_ ≤ length (reqs_ c))%nat →
  ∃ c', on_write end_ c = Ok c'
    ∧ payload_ c' = EmptyString
    ∧ socket_ c' = socket_ c ∧ cmds_ c' = cmds_ c
    ∧ ∀ r, socket_ c' ≠ None → cmds_ c' = 0 →
        ∃ c'', add_request r c' = Ok c''
               ∧ pending (writer_timer_ c'') = 0%nat.
Proof.
  intros Hwf Hle. destruct (wf_queue_holds c Hwf) as [rs Hq].
  pose proof (on_write_Ok end_ c rs Hq Hle) as Hok.
  pose proof (wf_on_write _ _ _ Hwf Hok) as Hwf'.
  eexists. split; [exact Hok|]. cbn. do 3 (split; [done|]).
  intros r Hs Hc. eexists. split; [by apply add_request_Ok|]. cbn.
  rewrite bool_decide_eq_true_2 by done.
  apply Z.eqb_eq in Hc. by rewrite Hc.
Qed.

Lemma on_write_clears_payload_witness :
  ∃ c', on_write 3 (set_payload_ "PINGSUBSCRIBEGET;SET" three_queued) = Ok c'
    ∧ payload_ c' = EmptyString
    ∧ socket_ c' = Some (mk_stream true) ∧ cmds_ c' = 0
    ∧ ∀ r, socket_ c' ≠ None → cmds_ c' = 0 →
        ∃ c'', add_request r c' = Ok c''
               ∧ pending (writer_timer_ c'') = 0%nat.
Proof.
  apply (on_write_clears_payload 3
           (set_payload_ "PINGSUBSCRIBEGET;SET" three_queued)).
  - vm_compute. reflexivity.
  - vm_compute. lia.
Defined.

(** ** Enqueueing *)

(** C4, as the code has it.  In every well-formed state [add_request]
    succeeds and appends the entry.  It cancels the writer timer exactly
    when a socket exists, the pending-responses counter is zero and the
    outbound buffer is empty; otherwise it leaves the timer alone.  Hence a
    writer that waits on its timer is woken if and only if those three
    conditions hold; whether the queue was empty plays no part. *)
Theorem add_request_wakes_writer r c :
  wf c = true →
  ∃ c', add_request r c = Ok c'
    ∧ reqs_ c' = reqs_ c ++ [(make_req_info c).2]
    ∧ (socket_ c ≠ None ∧ cmds_ c = 0 ∧ payload_ c = EmptyString →
       writer_timer_ c' = fst (timer_cancel (writer_timer_ c)))
    ∧ (¬ (socket_ c ≠ None ∧ cmds_ c = 0 ∧ payload_ c = EmptyString) →
       writer_timer_ c' = writer_timer_ c)
    ∧ ((0 < pending (writer_timer_ c))%nat →
       (pending (writer_timer_ c') = 0%nat
        ↔ socket_ c ≠ None ∧ cmds_ c = 0 ∧ payload_ c = EmptyString)).
Proof.
  intros Hwf. destruct (make_req_info_frame c) as (_ & _ & _ & Hw).
  eexists. split; [by apply add_request_Ok|].
  destruct (bool_decide (socket_ c ≠ None) && (cmds_ c =? 0)
            && bool_decide (payload_ c = EmptyString)) eqn:Hcond.
  - apply andb_prop in Hcond as [[Hs Hc]%andb_prop Hp].
    apply bool_decide_eq_true in Hs, Hp. apply Z.eqb_eq in Hc.
    cbn. split; [done|]. split; [done|].
    split; [intros Hn; by destruct Hn|]. by intros _.
  - assert (¬ (socket_ c ≠ None ∧ cmds_ c = 0 ∧ payload_ c = EmptyString))
      as Hn.
    { intros (Hs & Hc & Hp).
      rewrite (bool_decide_eq_true_2 (socket_ c ≠ None)) in Hcond by done.
      rewrite (bool_decide_eq_true_2 (payload_ c = EmptyString)) in Hcond
        by done.
      apply Z.eqb_eq in Hc. by rewrite Hc in Hcond. }
    cbn. rewrite Hw. split; [done|]. split; [intros H; by destruct Hn|].
    split; [done|]. intros Hpos.
    split; [intros H0; lia | intros H; by destruct Hn].
Qed.

Lemma add_request_wakes_writer_witness :
  ∃ c', add_request ping (writer_waiting connected) = Ok c'
    ∧ reqs_ c' = [0%nat]
    ∧ (Some (mk_stream true) ≠ None ∧ 0 = 0 ∧ EmptyString = EmptyString →
       writer_timer_ c' = mk_timer time_point_max 0)
    ∧ (¬ (Some (mk_stream true) ≠ None ∧ 0 = 0 ∧ EmptyString = EmptyString) →
       writer_timer_ c' = mk_timer time_point_max 1)
    ∧ ((0 < 1)%nat →
       (pending (writer_timer_ c') = 0%nat
        ↔ Some (mk_stream true) ≠ None ∧ 0 = 0
          ∧ EmptyString = EmptyString)).
Proof.
  apply (add_request_wakes_writer ping (writer_waiting connected)).
  vm_compute. reflexivity.
Defined.

(** C4, as the design document words it, fails in both directions.  On a
    connection without a socket the queue is empty and no write is in
    progress, yet the waiting writer is not woken; with a socket, nothing
    pending and an empty buffer, the waiting writer is woken although the
    queue was not empty. *)
Lemma add_request_wake_ignores_queue :
  (reqs_ (writer_waiting unconnected) = []
   ∧ payload_ (writer_waiting unconnected) = EmptyString
   ∧ pending (writer_timer_ (writer_waiting unconnected)) = 1%nat
   ∧ ∃ c', add_request ping (writer_waiting unconnected) = Ok c'
           ∧ pending (writer_timer_ c') = 1%nat)
  ∧ (reqs_ (writer_waiting three_queued) ≠ []
     ∧ payload_ (writer_waiting three_queued) = EmptyString
     ∧ pending (writer_timer_ (writer_waiting three_queued)) = 1%nat
     ∧ ∃ c', add_request ping (writer_waiting three_queued) = Ok c'
             ∧ pending (writer_timer_ c') = 0%nat).
Proof.
  split.
  - do 3 (split; [reflexivity|]). eexists. by vm_compute.
  - split; [discriminate|]. do 2 (split; [reflexivity|]).
    eexists. by vm_compute.
Qed.

Lemma queue_holds_snoc c c' p r rs :
  queue_holds c rs →
  reqs_ c' = reqs_ c ++ [p] →
  objects c' !! p = Some (enqueued r) →
  (∀ q, q ∈ reqs_ c → objects c' !! q = objects c !! q) →
  queue_holds c' (rs ++ [r]).
Proof.
  unfold queue_holds. intros Hq -> Hp Hold. apply Forall2_app.
  - apply Forall2_same_length_lookup. split; [by eapply Forall2_length|].
    intros i q r' Hi Hr'.
    destruct (Forall2_lookup_l _ _ _ _ _ Hq Hi) as (r'' & Hr'' & Hreq).
    assert (r'' = r') as -> by congruence.
    unfold request_of in *. rewrite Hold; [done|].
    by eapply list_elem_of_lookup_2.
  - repeat constructor. unfold request_of. by rewrite Hp.
Qed.



(** C10.  Whether [make_req_info] made a new entry or took one from the
    pool, after [add_request] the entry at the back of the queue has its
    timer reset (expiry at the maximum, no wait pending), points to the
    request, counts the request's commands and is not stopped: every field
    of [req_info] is overwritten, and the entry equals the one the same call
    makes when the pool is empty. *)
Theorem add_request_reinitialises_entry r c :
  wf c = true →
  ∃ c', add_request r c = Ok c'
    ∧ last (reqs_ c') = Some (make_req_info c).2
    ∧ objects c' !! (make_req_info c).2
      = Some {| timer := {| expiry := time_point_max; pending := 0 |};
                req := Some r; n_cmds := commands r; stop := false |}
    ∧ ∃ c'', add_request r (set_pool_ [] c) = Ok c''
        ∧ objects c'' !! (make_req_info (set_pool_ [] c)).2
          = objects c' !! (make_req_info c).2.
Proof.
  intros Hwf. pose proof (make_req_info_valid c Hwf) as Hvalid.
  assert (wf (set_pool_ [] c) = true) as Hwf0.
  { apply wf_intro; [|by intros p Hp%elem_of_nil].
    intros p Hp. destruct (wf_reqs c p Hwf Hp) as (e & r' & He & Hr).
    exists e. split; [done|]. by rewrite Hr. }
  pose proof (make_req_info_valid _ Hwf0) as Hvalid0.
  assert (∀ x, objects ((if bool_decide (socket_ x ≠ None) && (cmds_ x =? 0)
               && bool_decide (payload_ x = EmptyString)
             then set_writer_timer_ (fst (timer_cancel (writer_timer_ x)))
             else id)
            (set_objects
               (<[(make_req_info x).2 := enqueued r]>
                  (objects (make_req_info x).1))
               (set_reqs_ (reqs_ x ++ [(make_req_info x).2])
                  (make_req_info x).1))) !! (make_req_info x).2
          = <[(make_req_info x).2 := enqueued r]>
              (objects (make_req_info x).1) !! (make_req_info x).2) as Hobj.
  { intros x. by destruct (bool_decide (socket_ x ≠ None) && (cmds_ x =? 0)
                           && bool_decide (payload_ x = EmptyString)). }
  eexists. split; [by apply add_request_Ok|]. split; [|split].
  - destruct (bool_decide (socket_ c ≠ None) && (cmds_ c =? 0)
              && bool_decide (payload_ c = EmptyString)); cbn;
      apply last_snoc.
  - rewrite Hobj. by rewrite list_lookup_insert_eq.
  - eexists. split; [by apply add_request_Ok|].
    rewrite !Hobj. by rewrite !list_lookup_insert_eq.
Qed.

Lemma add_request_reinitialises_entry_witness :
  ∃ c', add_request get_set recycling = Ok c'
    ∧ last (reqs_ c') = Some 0%nat
    ∧ objects c' !! 0%nat
      = Some {| timer := {| expiry := time_point_max; pending := 0 |};
                req := Some get_set; n_cmds := 2; stop := false |}
    ∧ ∃ c'', add_request get_set (set_pool_ [] recycling) = Ok c''
        ∧ objects c'' !! 1%nat = objects c' !! 0%nat.
Proof.
  apply (add_request_reinitialises_entry get_set recycling).
  vm_compute. reflexivity.
Defined.

(** ** Entries *)

(** C7.  For an entry whose counter is a [size_t], [expects_response] is
    true exactly when [n_cmds] is greater than zero; [pop] trips its
    assertion exactly when [n_cmds] is zero, and under [n_cmds ≠ 0] it
    succeeds, decreases [n_cmds] by exactly one and changes nothing else. *)
Theorem expects_response_and_pop e :
  is_size_t (n_cmds e) →
  (expects_response e = true ↔ 0 < n_cmds e)
  ∧ (pop e = Fault AssertionFailure ↔ n_cmds e = 0)
  ∧ (n_cmds e ≠ 0 →
     ∃ e', pop e = Ok e'
           ∧ n_cmds e' = n_cmds e - 1 ∧ is_size_t (n_cmds e')
           ∧ timer e' = timer e ∧ req e' = req e ∧ stop e' = stop e).
Proof.
  unfold is_size_t, size_t_modulus. intros Hrange. split; [|split].
  - unfold expects_response. rewrite negb_true_iff, Z.eqb_neq. lia.
  - unfold pop. destruct (n_cmds e =? 0) eqn:Hn; cbn.
    + apply Z.eqb_eq in Hn. by split.
    + apply Z.eqb_neq in Hn. by split.
  - intros Hn. eexists. split; [by apply pop_Ok|]. cbn.
    unfold size_t_wrap, size_t_modulus.
    rewrite Z.mod_small by lia. repeat split; lia.
Qed.

Lemma expects_response_and_pop_witness :
  (expects_response (enqueued get_set) = true ↔ 0 < 2)
  ∧ (pop (enqueued get_set) = Fault AssertionFailure ↔ 2 = 0)
  ∧ (2 ≠ 0 →
     ∃ e', pop (enqueued get_set) = Ok e'
           ∧ n_cmds e' = 2 - 1 ∧ is_size_t (n_cmds e')
           ∧ timer e' = mk_timer time_point_max 0
           ∧ req e' = Some get_set ∧ stop e' = false).
Proof.
  apply (expects_response_and_pop (enqueued get_set)).
  unfold is_size_t, size_t_modulus. cbn. lia.
Defined.

(** ** Closing *)

(** C5.  On a connection that has a socket, whose queued pointers own their
    objects and whose queued entries are each awaited by at most one wait
    (that of the submitter), [close] succeeds; afterwards every entry that
    was queued has [stop = true] and no pending wait, the queue is empty,
    nothing waits on the read and push channels nor on the ping, idle-check
    and writer timers, the pending-responses counter is zero, the outbound
    buffer is empty and the socket is closed. *)
Theorem close_aborts_all_queued now c s :
  socket_ c = Some s →
  wf c = true →
  (∀ p e, p ∈ reqs_ c → objects c !! p = Some e →
     (pending (timer e) ≤ 1)%nat) →
  ∃ c', close now c = Ok c'
    ∧ (∀ p, p ∈ reqs_ c →
         ∃ e e', objects c !! p = Some e ∧ objects c' !! p = Some e'
                 ∧ stop e' = true ∧ pending (timer e') = 0%nat
                 ∧ req e' = req e ∧ n_cmds e' = n_cmds e)
    ∧ reqs_ c' = []
    ∧ chan_waiting (read_channel_ c') = 0%nat
    ∧ chan_waiting (push_channel_ c') = 0%nat
    ∧ pending (ping_timer_ c') = 0%nat
    ∧ pending (check_idle_timer_ c') = 0%nat
    ∧ expiry (check_idle_timer_ c') = now
    ∧ pending (writer_timer_ c') = 0%nat
    ∧ cmds_ c' = 0
    ∧ payload_ c' = EmptyString
    ∧ socket_ c' = Some (mk_stream false).
Proof.
  intros Hs Hwf Hone. pose proof (wf_reqs_valid c Hwf) as Hvalid.
  eexists. split; [by apply close_Ok|]. cbn.
  split; [|by repeat split].
  intros p Hp. rewrite Forall_forall in Hvalid.
  destruct (lookup_lt_is_Some_2 _ _ (Hvalid p Hp)) as [e He].
  destruct (alter_all_lookup_iter abort_entry (reqs_ c) (objects c) p)
    as (k & Hk & Hlk).
  exists e. eexists. split; [done|]. rewrite Hlk, He. cbn.
  split; [reflexivity|].
  rewrite abort_entry_iter; [done | by eapply Hone | by apply Hk].
Qed.

Lemma close_aborts_all_queued_witness :
  ∃ c', close 42 three_awaited = Ok c'
    ∧ (∀ p, p ∈ [0; 1; 2]%nat →
         ∃ e e', objects three_awaited !! p = Some e
                 ∧ objects c' !! p = Some e'
                 ∧ stop e' = true ∧ pending (timer e') = 0%nat
                 ∧ req e' = req e ∧ n_cmds e' = n_cmds e)
    ∧ reqs_ c' = []
    ∧ chan_waiting (read_channel_ c') = 0%nat
    ∧ chan_waiting (push_channel_ c') = 0%nat
    ∧ pending (ping_timer_ c') = 0%nat
    ∧ pending (check_idle_timer_ c') = 0%nat
    ∧ expiry (check_idle_timer_ c') = 42
    ∧ pending (writer_timer_ c') = 0%nat
    ∧ cmds_ c' = 0
    ∧ payload_ c' = EmptyString
    ∧ socket_ c' = Some (mk_stream false).
Proof.
  apply (close_aborts_all_queued 42 three_awaited (mk_stream true)).
  - reflexivity.
  - vm_compute. reflexivity.
  - intros p e Hp He. cbn in Hp.
    repeat (apply elem_of_cons in Hp as [->|Hp];
            [cbn in He; injection He as <-; cbn; lia|]).
    by apply elem_of_nil in Hp.
Defined.

(** C8.  [close] dereferences [socket_] first of all: it ends in the null
    dereference exactly when [socket_] is null, which is the state the
    constructor leaves; on a well-formed connection it completes exactly
    when a socket exists. *)
Theorem close_requires_socket now c :
  (close now c = Fault NullSocket ↔ socket_ c = None)
  ∧ close now (connection_ctor (cfg_ c)) = Fault NullSocket
  ∧ (wf c = true → (∃ c', close now c = Ok c') ↔ socket_ c ≠ None).
Proof.
  split; [apply close_Fault_NullSocket|]. split; [reflexivity|].
  intros Hwf. split.
  - intros [c' H] Hs. apply (close_Fault_NullSocket now c) in Hs.
    congruence.
  - intros Hs. destruct (socket_ c) as [s|] eqn:Hsock; [|done].
    eexists. apply (close_Ok now c s Hsock). by apply wf_reqs_valid.
Qed.

Lemma close_requires_socket_witness :
  (close 42 three_queued = Fault NullSocket
   ↔ Some (mk_stream true) = None)
  ∧ close 42 (connection_ctor config_default) = Fault NullSocket
  ∧ ((∃ c', close 42 three_queued = Ok c') ↔ Some (mk_stream true) ≠ None).
Proof.
  destruct (close_requires_socket 42 three_queued) as (Hnull & Hctor & Hok).
  split; [exact Hnull|]. split; [exact Hctor|].
  apply Hok. vm_compute. reflexivity.
Defined.

(** * Further properties of the member functions *)

(** ** Lists *)

Lemma filter_all_true {A} (f : A → bool) (l : list A) :
  Forall (λ x, f x = true) l →
  filter (λ x, f x = true) l = l ∧ filter (λ x, f x = false) l = [].
Proof.
  induction 1 as [|x l Hx _ [IH1 IH2]]; [done|].
  rewrite !filter_cons. rewrite decide_True by done.
  rewrite decide_False by (by rewrite Hx). by rewrite IH1, IH2.
Qed.

Lemma filter_complement_length {A} (f : A → bool) (l : list A) :
  (length (filter (λ x, f x = true) l)
   + length (filter (λ x, f x = false) l) = length l)%nat.
Proof.
  induction l as [|x l IH]; [done|]. rewrite !filter_cons.
  destruct (f x); repeat case_decide; try done; cbn; lia.
Qed.

(** ** The request behind a pointer, across updates *)

Lemma request_of_alter_all f l c c' p :
  (∀ e, req (f e) = req e) →
  objects c' = alter_all f l (objects c) →
  request_of c' p = request_of c p.
Proof.
  intros Hf Hobj. unfold request_of. rewrite Hobj.
  destruct (alter_all_lookup_iter f l (objects c) p) as (k & _ & ->).
  destruct (objects c !! p) as [e|]; [|done]. cbn.
  induction k as [|k IH]; [done|]. by rewrite Nat.iter_succ, Hf.
Qed.

Lemma awaits_response_alter_all f l c c' p :
  (∀ e, req (f e) = req e) →
  objects c' = alter_all f l (objects c) →
  awaits_response c' p = awaits_response c p.
Proof.
  intros Hf Hobj. unfold awaits_response.
  by rewrite (request_of_alter_all f l c c' p Hf Hobj).
Qed.

Lemma queue_holds_filter c rs l :
  Forall2 (λ p r, request_of c p = Some r) l rs →
  Forall2 (λ p r, request_of c p = Some r)
    (filter (λ p, awaits_response c p = true) l)
    (filter (λ r, commands r ≠ 0) rs).
Proof.
  apply Forall2_filter. intros p r Hr. unfold awaits_response.
  rewrite Hr, negb_true_iff. apply Z.eqb_neq.
Qed.

(** The requests the queue holds after [on_write]. *)
Lemma queue_holds_on_write end_ c c' rs :
  queue_holds c rs →
  on_write end_ c = Ok c' →
  queue_holds c'
    (filter (λ r, commands r ≠ 0) (take end_ rs) ++ drop end_ rs)
  ∧ ∀ p, awaits_response c' p = awaits_response c p.
Proof.
  intros Hq H. pose proof (on_write_inv _ _ _ H) as (Hle & _).
  rewrite (on_write_Ok end_ c rs Hq Hle) in H. injection H as <-.
  split.
  - unfold queue_holds. cbn [reqs_ set_reqs_]. apply Forall2_app.
    + eapply Forall2_impl;
        [apply queue_holds_filter, Forall2_take, Hq|].
      intros p r Hr. cbn beta. rewrite <- Hr.
      by eapply (request_of_alter_all cancel_wait).
    + eapply Forall2_impl; [apply Forall2_drop, Hq|].
      intros p r Hr. cbn beta. rewrite <- Hr.
      by eapply (request_of_alter_all cancel_wait).
  - intros p. by eapply (awaits_response_alter_all cancel_wait).
Qed.

(** ** Pointers handed out by [make_req_info] *)

Lemma make_req_info_not_queued c :
  wf c = true → alias_free c → (make_req_info c).2 ∉ reqs_ c.
Proof.
  intros Hwf Hfree Hin. unfold alias_free in Hfree.
  apply NoDup_app in Hfree as (_ & Hdisj & _).
  unfold make_req_info in Hin.
  destruct (last (pool_ c)) as [ret|] eqn:Hlast; cbn in Hin.
  - apply (Hdisj ret Hin). apply last_Some in Hlast as [l' ->].
    apply elem_of_app. right. by left.
  - destruct (wf_reqs c _ Hwf Hin) as (e & _ & He & _).
    apply lookup_lt_Some in He. lia.
Qed.

Lemma make_req_info_alias_free c :
  wf c = true → alias_free c →
  NoDup ((reqs_ c ++ [(make_req_info c).2]) ++ pool_ (make_req_info c).1).
Proof.
  intros Hwf Hfree. pose proof (make_req_info_not_queued c Hwf Hfree) as Hnew.
  unfold alias_free in Hfree. unfold make_req_info in *.
  destruct (last (pool_ c)) as [ret|] eqn:Hlast; cbn in *.
  - apply last_Some in Hlast as [l' Hl']. rewrite Hl' in Hfree |- *.
    rewrite removelast_last. rewrite <- app_assoc.
    by rewrite (Permutation_app_comm [ret] l').
  - apply last_None in Hlast. rewrite Hlast in Hfree |- *.
    rewrite app_nil_r in Hfree |- *.
    apply NoDup_app. split; [done|]. split; [|apply NoDup_singleton].
    intros x Hx ->%list_elem_of_singleton. done.
Qed.

(** The fields [add_request] writes, read off its closed form. *)
Lemma add_request_fields r c c' :
  wf c = true →
  add_request r c = Ok c' →
  reqs_ c' = reqs_ c ++ [(make_req_info c).2]
  ∧ pool_ c' = pool_ (make_req_info c).1
  ∧ objects c' = <[(make_req_info c).2 := enqueued r]>
                   (objects (make_req_info c).1)
  ∧ payload_ c' = payload_ c ∧ cmds_ c' = cmds_ c
  ∧ socket_ c' = socket_ c ∧ cfg_ c' = cfg_ c.
Proof.
  intros Hwf H. rewrite (add_request_Ok r c Hwf) in H. injection H as <-.
  destruct (make_req_info_frame c) as (Hs & Hc & Hp & _).
  assert (cfg_ (make_req_info c).1 = cfg_ c) as Hcfg.
  { unfold make_req_info. by destruct (last (pool_ c)). }
  by destruct (bool_decide (socket_ c ≠ None) && (cmds_ c =? 0)
               && bool_decide (payload_ c = EmptyString)).
Qed.

Lemma add_request_total r c :
  wf c = true → ∃ c', add_request r c = Ok c'.
Proof. intros Hwf. eexists. by apply add_request_Ok. Qed.

Lemma add_request_old_entries r c c' p :
  wf c = true → alias_free c →
  add_request r c = Ok c' →
  p ∈ reqs_ c → objects c' !! p = objects c !! p.
Proof.
  intros Hwf Hfree H Hp.
  destruct (add_request_fields r c c' Hwf H) as (_ & _ & -> & _).
  pose proof (make_req_info_not_queued c Hwf Hfree) as Hnew.
  rewrite list_lookup_insert_ne by congruence.
  destruct (wf_reqs c p Hwf Hp) as (e & _ & He & _).
  apply make_req_info_lookup. by eapply lookup_lt_Some.
Qed.

Lemma alias_free_add_request r c c' :
  wf c = true → alias_free c →
  add_request r c = Ok c' → alias_free c'.
Proof.
  intros Hwf Hfree H.
  destruct (add_request_fields r c c' Hwf H) as (Hr & Hp & _).
  unfold alias_free. rewrite Hr, Hp. by apply make_req_info_alias_free.
Qed.

Lemma queue_holds_add_request r c c' rs :
  wf c = true → alias_free c →
  queue_holds c rs →
  add_request r c = Ok c' → queue_holds c' (rs ++ [r]).
Proof.
  intros Hwf Hfree Hq H.
  destruct (add_request_fields r c c' Hwf H) as (Hr & _ & Ho & _).
  apply (queue_holds_snoc c c' (make_req_info c).2 r rs); [done..| |].
  - rewrite Ho. apply list_lookup_insert_eq.
    by apply make_req_info_valid.
  - intros q Hq'. by eapply add_request_old_entries.
Qed.

Lemma alias_free_on_write end_ c c' :
  alias_free c → on_write end_ c = Ok c' → pool_ c' = pool_ c ∧ alias_free c'.
Proof.
  unfold alias_free. intros Hfree H.
  pose proof (on_write_inv _ _ _ H) as (_ & _ & yes & Hyes & Hreqs).
  assert (pool_ c' = pool_ c) as Hpool.
  { unfold on_write in H. case_bool_decide; [|done].
    apply bind_inv in H as (sp & _ & H).
    apply bind_inv in H as (c1 & H1 & H). injection H as <-.
    apply for_each_frame in H1; [|intros ? ? ?; apply update_inv].
    by rewrite H1. }
  split; [done|]. rewrite Hpool, Hreqs.
  eapply sublist_NoDup; [exact Hfree|].
  apply sublist_app; [|done].
  rewrite <- (take_drop end_ (reqs_ c)) at 2. by apply sublist_app.
Qed.

(** ** The pool *)

(** X1.  An entry handed back with [release_req_info] is the one the next
    [make_req_info] returns, and the connection is then exactly as before
    the release.  Hence the next [add_request] queues that very pointer,
    allocates no object and leaves the pool as it was before the release. *)
Theorem release_then_reuse info r c :
  wf c = true →
  (info < length (objects c))%nat →
  make_req_info (release_req_info info c) = (c, info)
  ∧ ∃ c', add_request r (release_req_info info c) = Ok c'
      ∧ reqs_ c' = reqs_ c ++ [info]
      ∧ objects c' = <[info := enqueued r]> (objects c)
      ∧ length (objects c') = length (objects c)
      ∧ pool_ c' = pool_ c.
Proof.
  intros Hwf Hinfo.
  assert (make_req_info (release_req_info info c) = (c, info)) as Hmk.
  { unfold make_req_info, release_req_info. cbn.
    rewrite last_snoc, removelast_last. by destruct c. }
  split; [exact Hmk|].
  pose proof (wf_release_req_info info c Hwf Hinfo) as Hwf'.
  destruct (add_request_total r _ Hwf') as [c' Hc'].
  destruct (add_request_fields r _ c' Hwf' Hc') as (Hr & Hp & Ho & _).
  rewrite Hmk in Hr, Hp, Ho. cbn in Hr, Hp, Ho.
  exists c'. split; [exact Hc'|]. split; [exact Hr|]. split; [exact Ho|].
  split; [|exact Hp]. rewrite Ho. apply length_insert.
Qed.

Lemma release_then_reuse_witness :
  make_req_info (release_req_info 1%nat three_queued) = (three_queued, 1%nat)
  ∧ ∃ c', add_request ping (release_req_info 1%nat three_queued) = Ok c'
      ∧ reqs_ c' = reqs_ three_queued ++ [1%nat]
      ∧ objects c' = <[1%nat := enqueued ping]> (objects three_queued)
      ∧ length (objects c') = length (objects three_queued)
      ∧ pool_ c' = pool_ three_queued.
Proof.
  apply (release_then_reuse 1 ping three_queued).
  - vm_compute. reflexivity.
  - vm_compute. lia.
Defined.

(** X2.  When no pointer sits twice in the queue and the pool,
    [add_request] never hands out an entry that is still queued: the pointer
    it queues was not in the queue, every entry queued before is left
    exactly as it was, the queue then holds the old requests followed by the
    new one, and the connection stays well-formed and free of aliases. *)
Theorem add_request_keeps_queued_entries r c rs :
  wf c = true →
  alias_free c →
  queue_holds c rs →
  ∃ c', add_request r c = Ok c'
    ∧ ((make_req_info c).2 ∉ reqs_ c)
    ∧ (∀ p, p ∈ reqs_ c → objects c' !! p = objects c !! p)
    ∧ queue_holds c' (rs ++ [r])
    ∧ wf c' = true ∧ alias_free c'.
Proof.
  intros Hwf Hfree Hq. destruct (add_request_total r c Hwf) as [c' Hc'].
  exists c'. split; [exact Hc'|].
  split; [by apply make_req_info_not_queued|].
  split; [intros p Hp; by eapply add_request_old_entries|].
  split; [by eapply queue_holds_add_request|].
  split; [by eapply wf_add_request | by eapply alias_free_add_request].
Qed.

Lemma add_request_keeps_queued_entries_witness :
  ∃ c', add_request ping one_queued_one_pooled = Ok c'
    ∧ (0%nat ∉ [1%nat])
    ∧ (∀ p, p ∈ [1%nat] →
         objects c' !! p = objects one_queued_one_pooled !! p)
    ∧ queue_holds c' ([get_set] ++ [ping])
    ∧ wf c' = true ∧ alias_free c'.
Proof.
  apply (add_request_keeps_queued_entries ping one_queued_one_pooled
           [get_set]).
  - vm_compute. reflexivity.
  - unfold alias_free. cbn. apply (bool_decide_unpack _). vm_compute.
    reflexivity.
  - repeat constructor.
Defined.

(** ** Invariants of the member functions *)

Lemma coalesce_requests_frame c c' :
  wf c = true → coalesce_requests c = Ok c' →
  reqs_ c' = reqs_ c ∧ pool_ c' = pool_ c ∧ objects c' = objects c.
Proof.
  intros Hwf H. destruct (wf_queue_holds c Hwf) as [rs Hq].
  destruct (decide (payload_ c = EmptyString)) as [Hpl|Hpl]; cycle 1.
  { unfold coalesce_requests in H.
    by rewrite (bool_decide_eq_false_2 (payload_ c = EmptyString)) in H. }
  destruct (decide (reqs_ c = [])) as [Hnil|Hne].
  { unfold coalesce_requests in H.
    rewrite (bool_decide_eq_true_2 (payload_ c = EmptyString)) in H by done.
    by rewrite (bool_decide_eq_true_2 (reqs_ c = [])) in H. }
  rewrite (coalesce_requests_Ok c rs Hq Hpl Hne) in H. by injection H as <-.
Qed.

Lemma call_keeps_invariants m c c' :
  wf c = true → alias_free c → call m c = Ok c' →
  wf c' = true ∧ alias_free c'.
Proof.
  intros Hwf Hfree H. destruct m as [r| |end_|now]; cbn [call] in H.
  - split; [by eapply wf_add_request | by eapply alias_free_add_request].
  - split; [by eapply wf_coalesce_requests|].
    destruct (coalesce_requests_frame c c' Hwf H) as (Hr & Hp & _).
    unfold alias_free. by rewrite Hr, Hp.
  - split; [by eapply wf_on_write|]. by eapply alias_free_on_write.
  - split; [by eapply wf_close|].
    destruct (socket_ c) as [s|] eqn:Hs.
    + rewrite (close_Ok now c s Hs (wf_reqs_valid c Hwf)) in H.
      injection H as <-. unfold alias_free in *. cbn.
      by apply NoDup_app in Hfree as (_ & _ & ?).
    + unfold close in H. by rewrite Hs in H.
Qed.

(** X3.  Whatever sequence of [add_request], [coalesce_requests],
    [on_write] and [close] calls completes on a well-formed, alias-free
    connection, the connection it leaves is well-formed and alias-free
    again: queued entries hold a request, pooled pointers own an object and
    no entry is queued or pooled twice. *)
Theorem member_calls_keep_invariants ms c c' :
  wf c = true →
  alias_free c →
  calls ms c = Ok c' →
  wf c' = true ∧ alias_free c'.
Proof.
  unfold calls. revert c. induction ms as [|m ms IH]; intros c Hwf Hfree H.
  - cbn in H. by injection H as <-.
  - cbn [for_each] in H. apply bind_inv in H as (c1 & Hcall & H).
    destruct (call_keeps_invariants m c c1 Hwf Hfree Hcall) as [Hwf1 Hfree1].
    by apply (IH c1).
Qed.

Lemma member_calls_keep_invariants_witness :
  ∃ c', calls session one_queued_one_pooled = Ok c'
        ∧ wf c' = true ∧ alias_free c'.
Proof.
  eexists. split; [vm_compute; reflexivity|].
  apply (member_calls_keep_invariants session one_queued_one_pooled).
  - vm_compute. reflexivity.
  - unfold alias_free. cbn. apply (bool_decide_unpack _). vm_compute.
    reflexivity.
  - vm_compute. reflexivity.
Defined.

(** ** Requests submitted one after the other *)

Lemma add_requests_spec new : ∀ c rs,
  wf c = true → alias_free c → queue_holds c rs →
  ∃ c' ptrs, add_requests new c = Ok c'
    ∧ reqs_ c' = reqs_ c ++ ptrs ∧ length ptrs = length new
    ∧ queue_holds c' (rs ++ new)
    ∧ payload_ c' = payload_ c ∧ cmds_ c' = cmds_ c ∧ cfg_ c' = cfg_ c
    ∧ socket_ c' = socket_ c
    ∧ wf c' = true ∧ alias_free c'.
Proof.
  unfold add_requests. induction new as [|r new IH]; intros c rs Hwf Hfree Hq.
  - exists c, []. rewrite !app_nil_r. by repeat split.
  - destruct (add_request_total r c Hwf) as [c1 Hc1].
    destruct (add_request_fields r c c1 Hwf Hc1)
      as (Hr1 & _ & _ & Hp1 & Hn1 & Hs1 & Hcfg1).
    pose proof (wf_add_request r c c1 Hwf Hc1) as Hwf1.
    pose proof (alias_free_add_request r c c1 Hwf Hfree Hc1) as Hfree1.
    pose proof (queue_holds_add_request r c c1 rs Hwf Hfree Hq Hc1) as Hq1.
    destruct (IH c1 (rs ++ [r]) Hwf1 Hfree1 Hq1)
      as (c' & ptrs & Hrun & Hr & Hlen & Hq' & Hp & Hn & Hcfg & Hs & Hw & Hf).
    exists c', ((make_req_info c).2 :: ptrs).
    cbn [for_each]. rewrite Hc1, bind_Ok.
    split; [exact Hrun|]. split; [by rewrite Hr, Hr1, <- app_assoc|].
    split; [cbn; by rewrite Hlen|].
    split; [by rewrite <- app_assoc in Hq'|].
    repeat split; congruence.
Qed.

(** X4.  Requests submitted one after the other on a well-formed,
    alias-free connection are all queued, behind the entries already there
    and in the order of the calls: the old queue is a prefix of the new one,
    the queue grows by one entry per request and holds the old requests
    followed by the new ones.  The outbound buffer and the
    pending-responses counter are not touched. *)
Theorem add_requests_queue_in_order new c rs :
  wf c = true →
  alias_free c →
  queue_holds c rs →
  ∃ c', add_requests new c = Ok c'
    ∧ queue_holds c' (rs ++ new)
    ∧ take (length (reqs_ c)) (reqs_ c') = reqs_ c
    ∧ length (reqs_ c') = (length (reqs_ c) + length new)%nat
    ∧ payload_ c' = payload_ c ∧ cmds_ c' = cmds_ c.
Proof.
  intros Hwf Hfree Hq.
  destruct (add_requests_spec new c rs Hwf Hfree Hq)
    as (c' & ptrs & Hrun & Hr & Hlen & Hq' & Hp & Hn & _).
  exists c'. split; [exact Hrun|]. split; [exact Hq'|].
  rewrite Hr. split; [apply take_app_length|].
  split; [by rewrite length_app, Hlen | done].
Qed.

Lemma add_requests_queue_in_order_witness :
  ∃ c', add_requests [ping; subscribe] one_queued_one_pooled = Ok c'
    ∧ queue_holds c' ([get_set] ++ [ping; subscribe])
    ∧ take 1 (reqs_ c') = [1%nat]
    ∧ length (reqs_ c') = (1 + 2)%nat
    ∧ payload_ c' = EmptyString ∧ cmds_ c' = 0.
Proof.
  apply (add_requests_queue_in_order [ping; subscribe]
           one_queued_one_pooled [get_set]).
  - vm_compute. reflexivity.
  - unfold alias_free. cbn. apply (bool_decide_unpack _). vm_compute.
    reflexivity.
  - repeat constructor.
Defined.

(** X5.  Requests submitted back to back on an empty queue with an empty
    outbound buffer and coalescing enabled go out in one write: after the
    [add_request] calls, [coalesce_requests] succeeds and the outbound
    buffer is the concatenation of the requests' payloads in submission
    order, the pending-responses counter having grown by the sum of their
    command counts modulo 2^64. *)
Theorem submitted_then_coalesced new c :
  wf c = true →
  alias_free c →
  reqs_ c = [] →
  payload_ c = EmptyString →
  coalesce_requests_enabled (cfg_ c) = true →
  new ≠ [] →
  ∃ c1 c2, add_requests new c = Ok c1
    ∧ coalesce_requests c1 = Ok c2
    ∧ payload_ c2 = concat_payloads new
    ∧ cmds_ c2 = size_t_wrap (cmds_ c + sum_commands new).
Proof.
  intros Hwf Hfree Hnil Hpl Hon Hnew.
  assert (queue_holds c []) as Hq by (unfold queue_holds; rewrite Hnil; constructor).
  destruct (add_requests_spec new c [] Hwf Hfree Hq)
    as (c1 & ptrs & Hrun & Hr & Hlen & Hq1 & Hp1 & Hn1 & Hcfg1 & _).
  cbn [app] in Hq1. rewrite Hnil in Hr. cbn [app] in Hr.
  assert (reqs_ c1 ≠ []) as Hne.
  { rewrite Hr. destruct ptrs; [|done]. by destruct new. }
  exists c1. eexists. split; [exact Hrun|].
  split; [apply (coalesce_requests_Ok c1 new Hq1); congruence|].
  cbn zeta. rewrite Hcfg1, Hon, Hr, Hlen, firstn_all. cbn.
  split; [done|]. rewrite Hn1.
  destruct new as [|r new]; [done|]. apply accumulate_commands_wrap.
Qed.

Lemma submitted_then_coalesced_witness :
  ∃ c1 c2, add_requests [ping; subscribe; get_set] connected = Ok c1
    ∧ coalesce_requests c1 = Ok c2
    ∧ payload_ c2 = "PINGSUBSCRIBEGET;SET"%string
    ∧ cmds_ c2 = size_t_wrap (0 + 3).
Proof.
  apply (submitted_then_coalesced [ping; subscribe; get_set] connected);
    try reflexivity.
  - unfold alias_free. cbn. apply NoDup_nil_2.
  - discriminate.
Defined.

(** ** The assertions of [coalesce_requests] *)

(** X6.  On a well-formed connection [coalesce_requests] trips one of its
    two assertions exactly when the outbound buffer is not empty or the
    queue is empty, and it completes in every other case: coalescing
    again before [on_write] has cleared a non-empty buffer is an assertion
    failure, not a second batch. *)
Theorem coalesce_requests_assertions c :
  wf c = true →
  (coalesce_requests c = Fault AssertionFailure
   ↔ payload_ c ≠ EmptyString ∨ reqs_ c = [])
  ∧ ((∃ c', coalesce_requests c = Ok c')
     ↔ payload_ c = EmptyString ∧ reqs_ c ≠ [])
  ∧ (∀ c', coalesce_requests c = Ok c' → payload_ c' ≠ EmptyString →
       coalesce_requests c' = Fault AssertionFailure).
Proof.
  intros Hwf. destruct (wf_queue_holds c Hwf) as [rs Hq].
  assert (∀ x, payload_ x ≠ EmptyString →
               coalesce_requests x = Fault AssertionFailure) as Hbusy.
  { intros x Hx. unfold coalesce_requests.
    by rewrite (bool_decide_eq_false_2 (payload_ x = EmptyString)). }
  destruct (decide (payload_ c = EmptyString)) as [Hpl|Hpl]; cycle 1.
  { rewrite (Hbusy c Hpl). split; [split; [by left | done]|].
    split; [|done]. split; [by intros [? ?] | by intros [? _]]. }
  destruct (decide (reqs_ c = [])) as [Hnil|Hne].
  { assert (coalesce_requests c = Fault AssertionFailure) as ->.
    { unfold coalesce_requests.
      rewrite (bool_decide_eq_true_2 (payload_ c = EmptyString)) by done.
      by rewrite (bool_decide_eq_true_2 (reqs_ c = [])). }
    split; [split; [by right | done]|].
    split; [|done]. split; [by intros [? ?] | by intros [_ ?]]. }
  rewrite (coalesce_requests_Ok c rs Hq Hpl Hne).
  split; [split; [done | by intros [?|?]]|].
  split; [split; [done | by eexists]|].
  intros c' _ Hc'. by apply Hbusy.
Qed.

Lemma coalesce_requests_assertions_witness :
  (coalesce_requests three_queued = Fault AssertionFailure
   ↔ EmptyString ≠ EmptyString ∨ [0; 1; 2]%nat = [])
  ∧ ((∃ c', coalesce_requests three_queued = Ok c')
     ↔ EmptyString = EmptyString ∧ [0; 1; 2]%nat ≠ [])
  ∧ (∀ c', coalesce_requests three_queued = Ok c' →
       payload_ c' ≠ EmptyString →
       coalesce_requests c' = Fault AssertionFailure).
Proof.
  apply (coalesce_requests_assertions three_queued).
  vm_compute. reflexivity.
Defined.

(** ** What [on_write] keeps *)

(** X7.  [on_write] never removes or reorders an entry whose request
    expects a response, whether the write covered it or not: the
    subsequence of such entries is the same before and after, and so is, for
    every pointer, whether its request expects a response.  The queue
    shrinks by exactly the number of covered response-free entries. *)
Theorem on_write_keeps_awaiting_entries end_ c c' rs :
  queue_holds c rs →
  on_write end_ c = Ok c' →
  filter (λ p, awaits_response c p = true) (reqs_ c')
  = filter (λ p, awaits_response c p = true) (reqs_ c)
  ∧ (∀ p, awaits_response c' p = awaits_response c p)
  ∧ (length (reqs_ c')
     + length (filter (λ p, awaits_response c p = false)
                 (take end_ (reqs_ c)))
     = length (reqs_ c))%nat.
Proof.
  intros Hq H. pose proof (on_write_inv _ _ _ H) as (Hle & _).
  destruct (queue_holds_on_write end_ c c' rs Hq H) as [_ Hsame].
  rewrite (on_write_Ok end_ c rs Hq Hle) in H. injection H as <-.
  cbn [reqs_ set_reqs_]. split; [|split; [exact Hsame|]].
  - rewrite filter_app, list_filter_filter_l by done.
    rewrite <- filter_app. by rewrite take_drop.
  - rewrite length_app.
    pose proof (filter_complement_length (awaits_response c)
                  (take end_ (reqs_ c))) as Hlen.
    rewrite length_take in Hlen. rewrite length_drop. lia.
Qed.

Lemma on_write_keeps_awaiting_entries_witness :
  ∃ c', on_write 3 three_queued = Ok c'
    ∧ filter (λ p, awaits_response three_queued p = true) (reqs_ c')
      = filter (λ p, awaits_response three_queued p = true)
          (reqs_ three_queued)
    ∧ (∀ p, awaits_response c' p = awaits_response three_queued p)
    ∧ (length (reqs_ c')
       + length (filter (λ p, awaits_response three_queued p = false)
                   (take 3 (reqs_ three_queued)))
       = length (reqs_ three_queued))%nat.
Proof.
  eexists. split; [vm_compute; reflexivity|].
  apply (on_write_keeps_awaiting_entries 3 three_queued _
           [ping; subscribe; get_set]).
  - repeat constructor.
  - vm_compute. reflexivity.
Defined.

(** X8.  When every entry the write covered expects a response (in
    particular when the write covered no entry, [end_ = 0]), [on_write] only
    clears the outbound buffer: the queue, every entry and every timer are
    left as they were. *)
Theorem on_write_nothing_to_remove end_ c rs :
  queue_holds c rs →
  (end_ ≤ length (reqs_ c))%nat →
  Forall (λ p, awaits_response c p = true) (take end_ (reqs_ c)) →
  on_write end_ c = Ok (set_payload_ EmptyString c).
Proof.
  intros Hq Hle Hall. rewrite (on_write_Ok end_ c rs Hq Hle).
  destruct (filter_all_true (awaits_response c) _ Hall) as [-> ->].
  rewrite take_drop. unfold alter_all. cbn. by destruct c.
Qed.

Lemma on_write_nothing_to_remove_witness :
  on_write 1 (set_payload_ "PING" three_queued)
  = Ok (set_payload_ EmptyString (set_payload_ "PING" three_queued)).
Proof.
  apply (on_write_nothing_to_remove 1 (set_payload_ "PING" three_queued)
           [ping; subscribe; get_set]).
  - repeat constructor.
  - vm_compute. lia.
  - repeat constructor.
Defined.

(** X9.  [on_write] is idempotent on what it kept: run again over the
    covered entries that stayed in the queue, it changes nothing at all. *)
Theorem on_write_again_changes_nothing end_ c c' rs :
  queue_holds c rs →
  on_write end_ c = Ok c' →
  on_write
    (length (filter (λ p, awaits_response c p = true)
               (take end_ (reqs_ c)))) c'
  = Ok c'.
Proof.
  intros Hq H. pose proof (on_write_inv _ _ _ H) as (Hle & Hpl & _).
  destruct (queue_holds_on_write end_ c c' rs Hq H) as [Hq' Hsame].
  assert (reqs_ c'
          = filter (λ p, awaits_response c p = true) (take end_ (reqs_ c))
            ++ drop end_ (reqs_ c)) as Hreqs.
  { rewrite (on_write_Ok end_ c rs Hq Hle) in H. by injection H as <-. }
  set (kept := filter (λ p, awaits_response c p = true)
                 (take end_ (reqs_ c))) in *.
  assert (take (length kept) (reqs_ c') = kept) as Htake
    by (rewrite Hreqs; apply take_app_length).
  rewrite (on_write_Ok (length kept) c' _ Hq');
    [| rewrite Hreqs, length_app; lia].
  rewrite Htake.
  assert (Forall (λ p, awaits_response c' p = true) kept) as Hall.
  { apply Forall_forall. intros p Hp. rewrite Hsame.
    by apply list_elem_of_filter in Hp as [? _]. }
  destruct (filter_all_true (awaits_response c') _ Hall) as [-> ->].
  rewrite <- Htake at 1. rewrite take_drop.
  unfold alter_all. cbn. rewrite <- Hpl. by destruct c'.
Qed.

Lemma on_write_again_changes_nothing_witness :
  ∃ c', on_write 3 three_queued = Ok c'
        ∧ on_write 2 c' = Ok c'.
Proof.
  eexists. split; [vm_compute; reflexivity|].
  apply (on_write_again_changes_nothing 3 three_queued _
           [ping; subscribe; get_set]).
  - repeat constructor.
  - vm_compute. reflexivity.
Defined.

(** ** The writer's cycle *)

(** X10.  [coalesce_requests] followed by [on_write] over the entries it
    coalesced: on a non-empty queue holding the requests [rs], with an
    empty outbound buffer, both calls succeed; in between the buffer holds
    the payloads of the coalesced requests, afterwards it is empty again,
    the pending-responses counter has grown by the coalesced command counts
    (modulo 2^64) and the queue holds the coalesced requests that expect a
    response, in order, followed by the requests not coalesced. *)
Theorem coalesce_then_on_write c rs :
  queue_holds c rs →
  payload_ c = EmptyString →
  reqs_ c ≠ [] →
  ∃ c1 c2, coalesce_requests c = Ok c1
    ∧ payload_ c1 = concat_payloads (take (coalesced_size c) rs)
    ∧ on_write (coalesced_size c) c1 = Ok c2
    ∧ payload_ c2 = EmptyString
    ∧ cmds_ c2
      = size_t_wrap (cmds_ c + sum_commands (take (coalesced_size c) rs))
    ∧ queue_holds c2
        (filter (λ r, commands r ≠ 0) (take (coalesced_size c) rs)
         ++ drop (coalesced_size c) rs).
Proof.
  intros Hq Hpl Hne. unfold coalesced_size.
  set (k := if coalesce_requests_enabled (cfg_ c)
            then length (reqs_ c) else 1%nat).
  pose proof (coalesce_requests_Ok c rs Hq Hpl Hne) as H1.
  cbn zeta in H1. fold k in H1.
  set (c1 := set_cmds_ _ _) in H1.
  assert (queue_holds c1 rs) as Hq1 by exact Hq.
  assert (k ≤ length (reqs_ c1))%nat as Hle.
  { subst c1 k. cbn. destruct (reqs_ c); [done|].
    destruct coalesce_requests_enabled; cbn; lia. }
  pose proof (on_write_Ok k c1 rs Hq1 Hle) as H2.
  destruct (queue_holds_on_write k c1 _ rs Hq1 H2) as [Hq2 _].
  exists c1. eexists. split; [exact H1|]. split; [done|].
  split; [exact H2|]. split; [done|]. split; [|exact Hq2].
  cbn. assert (∃ r rs', take k rs = r :: rs') as (r & rs' & ->).
  { pose proof (Forall2_length _ _ _ Hq) as Hlen.
    destruct (reqs_ c) as [|p l]; [done|]. destruct rs as [|r rs]; [done|].
    subst k. destruct coalesce_requests_enabled; cbn; eauto. }
  apply accumulate_commands_wrap.
Qed.

Lemma coalesce_then_on_write_witness :
  ∃ c1 c2, coalesce_requests three_queued = Ok c1
    ∧ payload_ c1 = "PINGSUBSCRIBEGET;SET"%string
    ∧ on_write 3 c1 = Ok c2
    ∧ payload_ c2 = EmptyString
    ∧ cmds_ c2 = size_t_wrap (0 + 3)
    ∧ queue_holds c2 ([ping; get_set] ++ []).
Proof.
  apply (coalesce_then_on_write three_queued [ping; subscribe; get_set]).
  - repeat constructor.
  - reflexivity.
  - discriminate.
Defined.

(** ** [close], once more *)

(** X11.  Closing a closed connection changes nothing but the expiry of the
    idle-check timer, which is set to the time of the call: [close] is
    idempotent for one and the same time. *)
Theorem close_twice now now' c c' :
  wf c = true →
  close now c = Ok c' →
  close now c' = Ok c'
  ∧ close now' c' = Ok (set_check_idle_timer_ (mk_timer now' 0) c').
Proof.
  intros Hwf H. destruct (socket_ c) as [s|] eqn:Hs; cycle 1.
  { unfold close in H. by rewrite Hs in H. }
  rewrite (close_Ok now c s Hs (wf_reqs_valid c Hwf)) in H.
  injection H as <-.
  split; by rewrite (close_Ok _ _ (stream_close s)) by (done || constructor).
Qed.

Lemma close_twice_witness :
  ∃ c', close 42 three_awaited = Ok c'
    ∧ close 42 c' = Ok c'
    ∧ close 43 c' = Ok (set_check_idle_timer_ (mk_timer 43 0) c').
Proof.
  eexists. split; [vm_compute; reflexivity|].
  apply (close_twice 42 43 three_awaited).
  - vm_compute. reflexivity.
  - vm_compute. reflexivity.
Defined.



(** X13.  [close] closes the stream but leaves [socket_] non-null, and the
    guard of [add_request] tests the pointer only: a request submitted after
    [close] is queued alone, the writer timer is cancelled once more, and
    [coalesce_requests] then puts the request's payload into the outbound
    buffer, the socket being closed all the while. *)
Theorem add_request_after_close now r c c' :
  wf c = true →
  close now c = Ok c' →
  ∃ c1 c2, add_request r c' = Ok c1
    ∧ reqs_ c1 = [(make_req_info c').2]
    ∧ socket_ c1 = Some (mk_stream false)
    ∧ writer_timer_ c1 = mk_timer (expiry (writer_timer_ c)) 0
    ∧ coalesce_requests c1 = Ok c2
    ∧ payload_ c2 = payload r
    ∧ cmds_ c2 = size_t_wrap (commands r)
    ∧ socket_ c2 = Some (mk_stream false).
Proof.
  intros Hwf H. pose proof (wf_close now c c' Hwf H) as Hwf'.
  destruct (socket_ c) as [s|] eqn:Hs; cycle 1.
  { unfold close in H. by rewrite Hs in H. }
  rewrite (close_Ok now c s Hs (wf_reqs_valid c Hwf)) in H.
  assert (reqs_ c' = [] ∧ payload_ c' = EmptyString ∧ cmds_ c' = 0
          ∧ socket_ c' = Some (mk_stream false)
          ∧ writer_timer_ c' = mk_timer (expiry (writer_timer_ c)) 0)
    as (Hr & Hp & Hn & Hsock & Hw) by (by injection H as <-).
  clear H.
  pose proof (add_request_Ok r c' Hwf') as H1.
  rewrite Hsock, Hn, Hp, Hr in H1.
  rewrite (bool_decide_eq_true_2 (Some (mk_stream false) ≠ None)) in H1
    by done.
  rewrite (bool_decide_eq_true_2 (EmptyString = EmptyString)) in H1 by done.
  cbn [andb Z.eqb app] in H1.
  destruct (make_req_info_frame c') as (Hs1 & Hc1 & Hp1 & Hw1).
  set (c1 := set_writer_timer_ _ _) in H1.
  assert (queue_holds c1 [r]) as Hq1.
  { unfold queue_holds. subst c1. cbn. repeat constructor.
    unfold request_of. cbn.
    rewrite list_lookup_insert_eq by (by apply make_req_info_valid). done. }
  exists c1. eexists. split; [exact H1|]. split; [done|].
  split; [subst c1; cbn; by rewrite Hs1|].
  split; [subst c1; cbn; by rewrite Hw|].
  split; [apply (coalesce_requests_Ok c1 [r] Hq1)|].
  - subst c1. cbn. by rewrite Hp1.
  - by subst c1.
  - cbn. destruct (coalesce_requests_enabled _); cbn;
      rewrite append_empty_r, Hc1, Hn, Hs1, Hsock; by repeat split.
Qed.

Lemma add_request_after_close_witness :
  ∃ c' c1 c2, close 42 three_awaited = Ok c'
    ∧ add_request ping c' = Ok c1
    ∧ reqs_ c1 = [3%nat]
    ∧ socket_ c1 = Some (mk_stream false)
    ∧ writer_timer_ c1 = mk_timer time_point_max 0
    ∧ coalesce_requests c1 = Ok c2
    ∧ payload_ c2 = "PING"%string
    ∧ cmds_ c2 = size_t_wrap 1
    ∧ socket_ c2 = Some (mk_stream false).
Proof.
  eexists.
  assert (close 42 three_awaited = Ok _) as H by (vm_compute; reflexivity).
  destruct (add_request_after_close 42 ping three_awaited _
              ltac:(vm_compute; reflexivity) H) as (c1 & c2 & Hrest).
  exists c1, c2. split; [exact H | exact Hrest].
Defined.

(** ** Counting responses down *)

(** X14.  An entry whose counter holds [n] can be popped exactly [n] times:
    [n] calls of [pop] succeed and leave the counter at zero, so that the
    entry expects no response any more, with its timer, request and stop
    flag untouched; one call more trips the assertion. *)
Theorem pop_exactly_n_cmds_times n e :
  is_size_t (n_cmds e) →
  n_cmds e = Z.of_nat n →
  ∃ e', pop_times n e = Ok e'
    ∧ n_cmds e' = 0 ∧ expects_response e' = false
    ∧ timer e' = timer e ∧ req e' = req e ∧ stop e' = stop e
    ∧ pop_times (S n) e = Fault AssertionFailure.
Proof.
  revert e. induction n as [|n IH]; intros e Hrange Hn.
  - exists e. cbn. unfold expects_response, pop. rewrite Hn. cbn.
    by repeat split.
  - assert (n_cmds e ≠ 0) as Hne by lia.
    pose proof (pop_Ok e Hne) as Hpop.
    set (e1 := set_n_cmds _ e) in Hpop.
    assert (n_cmds e1 = Z.of_nat n) as Hn1.
    { subst e1. cbn. unfold size_t_wrap. unfold is_size_t in Hrange.
      rewrite Z.mod_small by lia. lia. }
    assert (is_size_t (n_cmds e1)) as Hrange1.
    { unfold is_size_t in *. lia. }
    destruct (IH e1 Hrange1 Hn1) as (e' & Hrun & H0 & Hexp & Ht & Hr & Hs & Hf).
    exists e'. change (pop_times (S n) e) with (pop e ≫= pop_times n).
    change (pop_times (S (S n)) e) with (pop e ≫= pop_times (S n)).
    rewrite Hpop, !bind_Ok. by repeat split.
Qed.

Lemma pop_exactly_n_cmds_times_witness :
  ∃ e', pop_times 2 (enqueued get_set) = Ok e'
    ∧ n_cmds e' = 0 ∧ expects_response e' = false
    ∧ timer e' = mk_timer time_point_max 0
    ∧ req e' = Some get_set ∧ stop e' = false
    ∧ pop_times 3 (enqueued get_set) = Fault AssertionFailure.
Proof.
  apply (pop_exactly_n_cmds_times 2 (enqueued get_set)).
  - unfold is_size_t, size_t_modulus. cbn. lia.
  - reflexivity.
Defined.

(** ** A request that expects no response *)

(** X15.  A request with command count zero, submitted on an empty queue
    with an empty outbound buffer, goes through the queue in one writer
    cycle: [add_request] queues it, [coalesce_requests] puts its payload
    into the outbound buffer, and [on_write] over that one entry removes it
    and cancels its timer.  The queue and the buffer are then empty again
    and the pending-responses counter is what it was. *)
Theorem response_free_request_cycle r c :
  wf c = true →
  reqs_ c = [] →
  payload_ c = EmptyString →
  is_size_t (cmds_ c) →
  commands r = 0 →
  ∃ c1 c2 c3, add_request r c = Ok c1
    ∧ coalesce_requests c1 = Ok c2
    ∧ payload_ c2 = payload r
    ∧ on_write 1 c2 = Ok c3
    ∧ reqs_ c3 = [] ∧ payload_ c3 = EmptyString ∧ cmds_ c3 = cmds_ c
    ∧ ∃ e, objects c3 !! (make_req_info c).2 = Some e
           ∧ pending (timer e) = 0%nat ∧ req e = Some r.
Proof.
  intros Hwf Hnil Hpl Hrange Hzero.
  destruct (add_request_total r c Hwf) as [c1 H1].
  destruct (add_request_fields r c c1 Hwf H1)
    as (Hr1 & _ & Ho1 & Hp1 & Hn1 & _).
  rewrite Hnil in Hr1. cbn [app] in Hr1.
  set (p := (make_req_info c).2) in *.
  assert (objects c1 !! p = Some (enqueued r)) as Hp.
  { rewrite Ho1. apply list_lookup_insert_eq. by apply make_req_info_valid. }
  assert (queue_holds c1 [r]) as Hq1.
  { unfold queue_holds. rewrite Hr1. repeat constructor.
    unfold request_of. by rewrite Hp. }
  pose proof (coalesce_requests_Ok c1 [r] Hq1) as H2.
  rewrite Hp1, Hr1 in H2. specialize (H2 Hpl ltac:(done)).
  cbn zeta in H2.
  assert ((if coalesce_requests_enabled (cfg_ c1)
           then length [p] else 1%nat) = 1%nat) as Hk
    by (by destruct coalesce_requests_enabled).
  rewrite Hk in H2. cbn [take concat_payloads foldr accumulate_commands foldl]
    in H2. rewrite append_empty_r in H2.
  set (c2 := set_cmds_ _ _) in H2.
  assert (queue_holds c2 [r]) as Hq2 by exact Hq1.
  assert (awaits_response c2 p = false) as Hno.
  { unfold awaits_response, request_of. subst c2. cbn. rewrite Hp. cbn.
    by rewrite Hzero. }
  pose proof (on_write_Ok 1 c2 [r] Hq2) as H3.
  assert (reqs_ c2 = [p]) as Hr2 by (subst c2; cbn; exact Hr1).
  rewrite Hr2 in H3. specialize (H3 ltac:(cbn; lia)).
  cbn [take drop] in H3. rewrite !filter_cons, !filter_nil in H3.
  rewrite (decide_False (P := awaits_response c2 p = true)) in H3
    by (by rewrite Hno).
  rewrite (decide_True (P := awaits_response c2 p = false)) in H3 by done.
  exists c1, c2. eexists. split; [exact H1|]. split; [exact H2|].
  split; [done|]. split; [exact H3|]. cbn.
  split; [done|]. split; [done|]. split.
  - rewrite Hn1, Hzero. unfold size_t_wrap. unfold is_size_t in Hrange.
    rewrite Z.add_0_r. by apply Z.mod_small.
  - exists (cancel_wait (enqueued r)). unfold alter_all. cbn.
    rewrite list_lookup_alter_eq, Hp. done.
Qed.

Lemma response_free_request_cycle_witness :
  ∃ c1 c2 c3, add_request subscribe connected = Ok c1
    ∧ coalesce_requests c1 = Ok c2
    ∧ payload_ c2 = "SUBSCRIBE"%string
    ∧ on_write 1 c2 = Ok c3
    ∧ reqs_ c3 = [] ∧ payload_ c3 = EmptyString ∧ cmds_ c3 = 0
    ∧ ∃ e, objects c3 !! 0%nat = Some e
           ∧ pending (timer e) = 0%nat ∧ req e = Some subscribe.
Proof.
  apply (response_free_request_cycle subscribe connected);
    try reflexivity.
  unfold is_size_t, size_t_modulus. cbn. lia.
Defined.

(** ** Before the first connection *)

Lemma add_requests_unconnected rs : ∀ c,
  wf c = true → pool_ c = [] → socket_ c = None →
  add_requests rs c
  = Ok (set_objects (objects c ++ (enqueued <$> rs))
          (set_reqs_ (reqs_ c ++ seq (length (objects c)) (length rs)) c)).
Proof.
  unfold add_requests. induction rs as [|r rs IH]; intros c Hwf Hpool Hs.
  - cbn. rewrite !app_nil_r. by destruct c.
  - cbn [for_each]. pose proof (add_request_Ok r c Hwf) as H1.
    rewrite Hs in H1.
    rewrite (bool_decide_eq_false_2 (None ≠ None)) in H1 by tauto.
    cbn [andb id] in H1.
    assert (make_req_info c
            = (set_objects (objects c ++ [req_info_ctor]) c,
               length (objects c))) as Hmk.
    { unfold make_req_info. by rewrite Hpool. }
    rewrite Hmk in H1. cbn [fst snd objects set_objects] in H1.
    rewrite insert_app_r_alt, Nat.sub_diag in H1 by done.
    cbn [insert list_insert] in H1.
    set (c1 := set_objects _ _) in H1.
    rewrite H1, bind_Ok.
    assert (wf c1 = true) as Hwf1 by (by eapply wf_add_request).
    rewrite (IH c1 Hwf1); [|subst c1; cbn; done..].
    subst c1. cbn. rewrite length_app, Nat.add_1_r. cbn.
    rewrite <- !app_assoc. cbn. by destruct c.
Qed.

(** X16.  Requests submitted on a freshly constructed connection, before
    any socket exists, are all queued and nothing else happens: the
    [add_request] calls succeed, each allocates one entry, the queue holds
    the pointers to them in order, every entry holds its request with the
    full command count and [stop = false], and the writer timer, the timers
    and channels and the counters are as the constructor left them. *)
Theorem add_requests_on_fresh_connection cfg rs :
  add_requests rs (connection_ctor cfg)
  = Ok (mk_connection None timer_ctor timer_ctor
          (mk_timer time_point_max 0) channel_ctor channel_ctor cfg
          EmptyString EmptyString 0 (seq 0 (length rs)) [] time_point_min
          (enqueued <$> rs))
  ∧ ∃ c', add_requests rs (connection_ctor cfg) = Ok c'
          ∧ queue_holds c' rs ∧ wf c' = true ∧ alias_free c'.
Proof.
  pose proof (add_requests_unconnected rs (connection_ctor cfg)
                (wf_connection_ctor cfg) eq_refl eq_refl) as H.
  cbn in H. split; [exact H|].
  assert (wf (connection_ctor cfg) = true) as Hwf
    by apply wf_connection_ctor.
  assert (alias_free (connection_ctor cfg)) as Hfree
    by (unfold alias_free; cbn; constructor).
  assert (queue_holds (connection_ctor cfg) []) as Hq
    by (unfold queue_holds; constructor).
  destruct (add_requests_spec rs _ [] Hwf Hfree Hq)
    as (c' & ptrs & Hrun & _ & _ & Hq' & _ & _ & _ & _ & Hwf' & Hfree').
  exists c'. by repeat split.
Qed.

(** * The order of the queue *)

(** ** Logs of enqueue calls *)

Lemma last_enqueue_from_bound log : ∀ i p j r,
  last_enqueue_from i log p = Some (j, r) →
  (i ≤ j < i + length log)%nat.
Proof.
  induction log as [|[q r'] log IH]; intros i p j r H; cbn in H; [done|].
  destruct (last_enqueue_from (S i) log p) as [[j' r'']|] eqn:Hrec.
  - injection H as -> ->. apply IH in Hrec. cbn. lia.
  - case_decide; [|done]. injection H as -> ->. cbn. lia.
Qed.

Lemma last_enqueue_from_snoc_eq log : ∀ i p r,
  last_enqueue_from i (log ++ [(p, r)]) p = Some ((i + length log)%nat, r).
Proof.
  induction log as [|[q r'] log IH]; intros i p r; cbn.
  - rewrite decide_True by done. do 2 f_equal. lia.
  - rewrite IH. do 2 f_equal. lia.
Qed.

Lemma last_enqueue_from_snoc_ne log : ∀ i p q r,
  q ≠ p →
  last_enqueue_from i (log ++ [(p, r)]) q = last_enqueue_from i log q.
Proof.
  induction log as [|[q' r'] log IH]; intros i p q r Hne; cbn.
  - by rewrite decide_False.
  - by rewrite IH.
Qed.

Lemma submitted_enqueue_log ops : ∀ c c',
  run ops c = Ok c' → snd <$> enqueue_log ops c = submitted ops.
Proof.
  unfold run, submitted. induction ops as [|o ops IH]; intros c c' H; [done|].
  cbn [for_each] in H. apply bind_inv in H as (c1 & Hstep & H).
  cbn [enqueue_log]. rewrite Hstep. apply IH in H.
  destruct o; cbn; by rewrite H.
Qed.

(** ** Sorted lists *)

Lemma StronglySorted_sublist {A} (R : A → A → Prop) l1 l2 :
  l1 `sublist_of` l2 → StronglySorted R l2 → StronglySorted R l1.
Proof.
  induction 1 as [|x l1 l2 Hsub IH|x l1 l2 Hsub IH]; intros Hs.
  - constructor.
  - apply StronglySorted_cons in Hs as [Hx Hs].
    apply StronglySorted_cons. split; [|by apply IH].
    rewrite Forall_forall in Hx |- *. intros y Hy. apply Hx.
    by eapply sublist_subseteq.
  - apply StronglySorted_cons in Hs as [_ Hs]. by apply IH.
Qed.

Lemma StronglySorted_change {A} (R R' : A → A → Prop) l :
  (∀ x y, x ∈ l → y ∈ l → R x y → R' x y) →
  StronglySorted R l → StronglySorted R' l.
Proof.
  induction l as [|x l IH]; intros HR Hs; [constructor|].
  apply StronglySorted_cons in Hs as [Hx Hs].
  apply StronglySorted_cons. split.
  - rewrite Forall_forall in Hx |- *. intros y Hy.
    apply HR; [by left | by right | by apply Hx].
  - apply IH; [|done]. intros y z Hy Hz. apply HR; by right.
Qed.

(** ** The invariant, operation by operation *)

Lemma queue_in_enqueue_order_same log c c' :
  reqs_ c' `sublist_of` reqs_ c →
  (∀ q, request_of c' q = request_of c q) →
  queue_in_enqueue_order log c → queue_in_enqueue_order log c'.
Proof.
  intros Hsub Hreq [Hsorted Hall]. split.
  - by eapply StronglySorted_sublist.
  - rewrite Forall_forall in Hall |- *. intros q Hq.
    apply (sublist_subseteq _ _ Hsub) in Hq.
    destruct (Hall q Hq) as (i & r & Hi & Hr).
    exists i, r. by rewrite Hreq.
Qed.

Lemma queue_in_enqueue_order_snoc log c c' p r :
  p ∉ reqs_ c →
  reqs_ c' = reqs_ c ++ [p] →
  request_of c' p = Some r →
  (∀ q, q ∈ reqs_ c → request_of c' q = request_of c q) →
  queue_in_enqueue_order log c →
  queue_in_enqueue_order (log ++ [(p, r)]) c'.
Proof.
  intros Hnew Hreqs Hp Hold [Hsorted Hall].
  rewrite Forall_forall in Hall.
  assert (last_enqueue (log ++ [(p, r)]) p = Some (length log, r)) as Hlastp
    by apply (last_enqueue_from_snoc_eq log 0).
  assert (∀ q, q ∈ reqs_ c →
            last_enqueue (log ++ [(p, r)]) q = last_enqueue log q) as Hlast.
  { intros q Hq. apply last_enqueue_from_snoc_ne. by intros ->. }
  split; rewrite Hreqs.
  - apply StronglySorted_app. split; [|split].
    + intros q p' Hq ->%list_elem_of_singleton.
      unfold enqueued_before. rewrite Hlastp, (Hlast q Hq).
      destruct (Hall q Hq) as (i & r' & Hi & _). rewrite Hi.
      apply (last_enqueue_from_bound log 0) in Hi. lia.
    + eapply StronglySorted_change; [|exact Hsorted].
      intros x y Hx Hy. unfold enqueued_before.
      by rewrite (Hlast x Hx), (Hlast y Hy).
    + repeat constructor.
  - apply Forall_app. split.
    + apply Forall_forall. intros q Hq.
      destruct (Hall q Hq) as (i & r' & Hi & Hr').
      exists i, r'. by rewrite (Hlast q Hq), (Hold q Hq).
    + repeat constructor. by exists (length log), r.
Qed.

Lemma wf_same_requests c c' :
  wf c = true →
  reqs_ c' ⊆ reqs_ c →
  pool_ c' = pool_ c →
  length (objects c') = length (objects c) →
  (∀ q, request_of c' q = request_of c q) →
  wf c' = true.
Proof.
  intros Hwf Hreqs Hpool Hlen Hreq. apply wf_intro.
  - intros p Hp. apply Hreqs in Hp.
    destruct (wf_reqs c p Hwf Hp) as (e & r & He & Hr).
    assert (request_of c' p = Some r) as H'.
    { rewrite Hreq. unfold request_of. by rewrite He. }
    unfold request_of in H'.
    destruct (objects c' !! p) as [e'|]; [|done]. cbn in H'.
    exists e'. split; [done|]. by rewrite H'.
  - intros p Hp. rewrite Hpool in Hp. rewrite Hlen. by apply wf_pool.
Qed.

(** The reader's decrement on a front entry that expects a response. *)
Lemma decrement_head_Ok c p l e :
  reqs_ c = p :: l →
  objects c !! p = Some e →
  n_cmds e ≠ 0 →
  ∃ c', decrement_head c = Ok c'
    ∧ reqs_ c' = (if size_t_wrap (n_cmds e - 1) =? 0 then l else p :: l)
    ∧ pool_ c' = pool_ c
    ∧ length (objects c') = length (objects c)
    ∧ ∀ q, request_of c' q = request_of c q.
Proof.
  intros Hreqs He Hn. unfold decrement_head, front. rewrite Hreqs.
  cbn [head from_option]. rewrite bind_Ok.
  unfold deref at 1. rewrite He. cbn [from_option]. rewrite bind_Ok.
  rewrite (pop_Ok e Hn), bind_Ok.
  set (e' := set_n_cmds _ e).
  pose proof (lookup_lt_Some _ _ _ He) as Hlt.
  rewrite update_alter by done. rewrite bind_Ok.
  change (n_cmds e') with (size_t_wrap (n_cmds e - 1)).
  assert (∀ (f : req_info → req_info) q, (∀ x, req (f x) = req x) →
            (alter f p (alter (λ _, e') p (objects c)) !! q ≫= req)
            = (objects c !! q ≫= req)
            ∧ (alter (λ _, e') p (objects c) !! q ≫= req)
              = (objects c !! q ≫= req)) as Hsame.
  { intros f q Hf. destruct (decide (p = q)) as [<-|Hpq].
    - rewrite !list_lookup_alter_eq, He. cbn. by rewrite Hf.
    - by rewrite !list_lookup_alter_ne. }
  destruct (size_t_wrap (n_cmds e - 1) =? 0).
  - rewrite update_alter by (cbn; by rewrite length_alter).
    eexists. split; [reflexivity|]. cbn. rewrite Hreqs.
    split; [done|]. split; [done|]. split; [by rewrite !length_alter|].
    intros q. unfold request_of. cbn. by apply Hsame.
  - eexists. split; [reflexivity|]. cbn.
    split; [done|]. split; [done|]. split; [by rewrite !length_alter|].
    intros q. unfold request_of. cbn. by apply (Hsame id).
Qed.

Lemma step_keeps_order o c log :
  wf c = true → alias_free c → queue_in_enqueue_order log c →
  admissible_step o c = true →
  ∃ c', step o c = Ok c'
    ∧ wf c' = true ∧ alias_free c'
    ∧ queue_in_enqueue_order (log ++ enqueue_log [o] c) c'.
Proof.
  intros Hwf Hfree Hord Hadm.
  destruct o as [r|end_| |info]; cbn [step admissible_step] in *.
  - destruct (add_request_total r c Hwf) as [c' Hc'].
    exists c'. split; [exact Hc'|].
    split; [by eapply wf_add_request|].
    split; [by eapply alias_free_add_request|].
    cbn [enqueue_log step]. rewrite Hc'.
    destruct (add_request_fields r c c' Hwf Hc') as (Hr & _ & Ho & _).
    apply (queue_in_enqueue_order_snoc log c c'); try done.
    + by apply make_req_info_not_queued.
    + unfold request_of. rewrite Ho.
      rewrite list_lookup_insert_eq by (by apply make_req_info_valid). done.
    + intros q Hq. unfold request_of.
      by rewrite (add_request_old_entries r c c' q Hwf Hfree Hc' Hq).
  - apply bool_decide_eq_true in Hadm.
    destruct (wf_queue_holds c Hwf) as [rs Hq].
    pose proof (on_write_Ok end_ c rs Hq Hadm) as Hok.
    eexists. split; [exact Hok|].
    split; [by eapply wf_on_write|].
    split; [by eapply alias_free_on_write|].
    cbn [enqueue_log step]. rewrite Hok, app_nil_r.
    eapply queue_in_enqueue_order_same; [| |exact Hord].
    + pose proof (step_sublist (WriterCompletion end_) c _ Hok) as Hsub.
      by rewrite app_nil_r in Hsub.
    + intros q. by eapply (request_of_alter_all cancel_wait).
  - destruct (reqs_ c) as [|p l] eqn:Hreqs; [done|]. cbn [head] in Hadm.
    destruct (objects c !! p) as [e|] eqn:He; [|done].
    assert (n_cmds e ≠ 0) as Hn.
    { unfold expects_response in Hadm. apply negb_true_iff in Hadm.
      by apply Z.eqb_neq. }
    destruct (decrement_head_Ok c p l e Hreqs He Hn)
      as (c' & Hok & Hr & Hp & Hlen & Hreq).
    assert (reqs_ c' `sublist_of` reqs_ c) as Hsub.
    { rewrite Hr, Hreqs. destruct (_ =? 0); [by constructor | done]. }
    exists c'. split; [exact Hok|].
    split; [eapply wf_same_requests; eauto using sublist_subseteq|].
    split.
    { unfold alias_free in *. rewrite Hp.
      eapply sublist_NoDup; [exact Hfree|]. by apply sublist_app. }
    cbn [enqueue_log step]. rewrite Hok, app_nil_r.
    by eapply queue_in_enqueue_order_same.
  - apply andb_prop in Hadm as [Hvalid Hnot].
    apply bool_decide_eq_true in Hvalid, Hnot.
    eexists. split; [reflexivity|].
    split; [by apply wf_release_req_info|]. split.
    + unfold alias_free in *. cbn. rewrite app_assoc.
      apply NoDup_app. split; [done|]. split; [|apply NoDup_singleton].
      intros x Hx ->%list_elem_of_singleton. done.
    + cbn. rewrite app_nil_r.
      eapply queue_in_enqueue_order_same; [| |exact Hord]; done.
Qed.

Lemma enqueue_log_cons o ops c c1 :
  step o c = Ok c1 →
  enqueue_log (o :: ops) c = enqueue_log [o] c ++ enqueue_log ops c1.
Proof.
  intros H. cbn [enqueue_log]. rewrite H. by destruct o.
Qed.

Lemma run_keeps_order ops : ∀ c log,
  wf c = true → alias_free c → queue_in_enqueue_order log c →
  admissible ops c = true →
  ∃ c', run ops c = Ok c'
    ∧ wf c' = true ∧ alias_free c'
    ∧ queue_in_enqueue_order (log ++ enqueue_log ops c) c'.
Proof.
  unfold run. induction ops as [|o ops IH]; intros c log Hwf Hfree Hord Hadm.
  - exists c. cbn. rewrite app_nil_r.
    split; [done|]. split; [done|]. by split.
  - cbn [admissible] in Hadm. apply andb_prop in Hadm as [Hstep Hadm].
    destruct (step_keeps_order o c log Hwf Hfree Hord Hstep)
      as (c1 & Hc1 & Hwf1 & Hfree1 & Hord1).
    unfold next_state in Hadm. rewrite Hc1 in Hadm.
    destruct (IH c1 _ Hwf1 Hfree1 Hord1 Hadm)
      as (c' & Hrun & Hwf' & Hfree' & Hord').
    exists c'. cbn [for_each]. rewrite Hc1, bind_Ok.
    split; [exact Hrun|]. split; [done|]. split; [done|].
    by rewrite (enqueue_log_cons o ops c c1 Hc1), app_assoc.
Qed.

(** C2.  Take a well-formed, alias-free connection whose queue is in the
    order of the enqueue calls logged so far, and any sequence of enqueue,
    writer-completion, reader-decrement (and release) operations each of
    which finds what it needs.  The whole sequence then completes, and the
    queue it leaves is in the order of the enqueue calls: every queued entry
    holds the request of the call that enqueued it, and along the queue the
    numbers of those calls strictly increase; the log lists the submitted
    requests in call order.  In the state reached [add_request] completes
    and appends at the tail; [on_write] completes for every position inside
    the queue, keeps in their order the covered entries whose request
    expects a response and leaves the rest of the queue untouched; the
    reader's decrement of a front entry that expects a response completes
    and removes that front entry or nothing. *)
Theorem queue_order_is_enqueue_order ops c log :
  wf c = true →
  alias_free c →
  queue_in_enqueue_order log c →
  admissible ops c = true →
  ∃ c', run ops c = Ok c'
    ∧ queue_in_enqueue_order (log ++ enqueue_log ops c) c'
    ∧ snd <$> enqueue_log ops c = submitted ops
    ∧ reqs_ c' `sublist_of` reqs_ c ++ enqueue_order ops c
    ∧ wf c' = true ∧ alias_free c'
    ∧ (∀ r, ∃ c'', add_request r c' = Ok c''
              ∧ reqs_ c'' = reqs_ c' ++ [(make_req_info c').2])
    ∧ (∀ end_, (end_ ≤ length (reqs_ c'))%nat →
         ∃ c'', on_write end_ c' = Ok c''
           ∧ reqs_ c'' = filter (λ p, awaits_response c' p = true)
                           (take end_ (reqs_ c'))
                         ++ drop end_ (reqs_ c'))
    ∧ (∀ p l e, reqs_ c' = p :: l → objects c' !! p = Some e →
         n_cmds e ≠ 0 →
         ∃ c'', decrement_head c' = Ok c''
           ∧ reqs_ c'' = if size_t_wrap (n_cmds e - 1) =? 0
                         then l else p :: l).
Proof.
  intros Hwf Hfree Hord Hadm.
  destruct (run_keeps_order ops c log Hwf Hfree Hord Hadm)
    as (c' & Hrun & Hwf' & Hfree' & Hord').
  exists c'. split; [exact Hrun|]. split; [exact Hord'|].
  split; [by eapply submitted_enqueue_log|].
  split; [by apply run_sublist|]. split; [exact Hwf'|].
  split; [exact Hfree'|]. split; [|split].
  - intros r. destruct (add_request_total r c' Hwf') as [c'' Hc''].
    exists c''. split; [exact Hc''|]. by apply add_request_inv in Hc''.
  - intros end_ Hle. destruct (wf_queue_holds c' Hwf') as [rs Hq].
    eexists. split; [by eapply on_write_Ok|]. done.
  - intros p l e Hreqs He Hn.
    destruct (decrement_head_Ok c' p l e Hreqs He Hn) as (c'' & Hok & Hr & _).
    by exists c''.
Qed.

Lemma queue_order_is_enqueue_order_witness :
  ∃ c', run pipeline connected = Ok c'
    ∧ queue_in_enqueue_order ([] ++ enqueue_log pipeline connected) c'
    ∧ snd <$> enqueue_log pipeline connected = submitted pipeline
    ∧ reqs_ c' `sublist_of` reqs_ connected ++ enqueue_order pipeline connected
    ∧ wf c' = true ∧ alias_free c'
    ∧ (∀ r, ∃ c'', add_request r c' = Ok c''
              ∧ reqs_ c'' = reqs_ c' ++ [(make_req_info c').2])
    ∧ (∀ end_, (end_ ≤ length (reqs_ c'))%nat →
         ∃ c'', on_write end_ c' = Ok c''
           ∧ reqs_ c'' = filter (λ p, awaits_response c' p = true)
                           (take end_ (reqs_ c'))
                         ++ drop end_ (reqs_ c'))
    ∧ (∀ p l e, reqs_ c' = p :: l → objects c' !! p = Some e →
         n_cmds e ≠ 0 →
         ∃ c'', decrement_head c' = Ok c''
           ∧ reqs_ c'' = if size_t_wrap (n_cmds e - 1) =? 0
                         then l else p :: l).
Proof.
  apply (queue_order_is_enqueue_order pipeline connected []).
  - vm_compute. reflexivity.
  - unfold alias_free. cbn. constructor.
  - split; constructor.
  - vm_compute. reflexivity.
Defined.

(** The run of the witness: the entry of the first call is removed and used
    again by the fourth, which puts pointer 0 behind pointer 2; the queue
    [2; 0] is in call order (calls 2 and 3), the order [0; 2] would not
    be. *)
Lemma pipeline_order_example :
  reqs_ (after pipeline connected) = [2; 0]%nat
  ∧ enqueue_log pipeline connected
    = [(0%nat, ping); (1%nat, subscribe); (2%nat, get_set); (0%nat, ping)]
  ∧ last_enqueue (enqueue_log pipeline connected) 2 = Some (2%nat, get_set)
  ∧ last_enqueue (enqueue_log pipeline connected) 0 = Some (3%nat, ping)
  ∧ ¬ StronglySorted (enqueued_before (enqueue_log pipeline connected))
        [0; 2]%nat.
Proof.
  do 4 (split; [by vm_compute|]).
  intros Hs. apply StronglySorted_cons in Hs as [Hx _].
  apply Forall_cons in Hx as [Hx _]. vm_compute in Hx. lia.
Qed.

(** ** The queue at the level of requests *)

Lemma call_refines_model m c c' rs :
  wf c = true → alias_free c → queue_holds c rs →
  call m c = Ok c' →
  queue_holds c'
    (model_queue (model_call (coalesce_requests_enabled (cfg_ c)) m
                    (mk_model rs (payload_ c) (cmds_ c))))
  ∧ payload_ c'
    = model_payload (model_call (coalesce_requests_enabled (cfg_ c)) m
                       (mk_model rs (payload_ c) (cmds_ c)))
  ∧ cmds_ c'
    = model_cmds (model_call (coalesce_requests_enabled (cfg_ c)) m
                    (mk_model rs (payload_ c) (cmds_ c)))
  ∧ cfg_ c' = cfg_ c.
Proof.
  intros Hwf Hfree Hq H.
  destruct m as [r| |end_|now]; cbn [call model_call model_queue
    model_payload model_cmds] in *.
  - destruct (add_request_fields r c c' Hwf H)
      as (_ & _ & _ & Hp & Hn & _ & Hcfg).
    split; [by eapply queue_holds_add_request | done].
  - destruct (decide (payload_ c = EmptyString)) as [Hpl|Hpl]; cycle 1.
    { unfold coalesce_requests in H.
      by rewrite (bool_decide_eq_false_2 (payload_ c = EmptyString)) in H. }
    destruct (decide (reqs_ c = [])) as [Hnil|Hne].
    { unfold coalesce_requests in H.
      rewrite (bool_decide_eq_true_2 (payload_ c = EmptyString)) in H by done.
      by rewrite (bool_decide_eq_true_2 (reqs_ c = [])) in H. }
    rewrite (coalesce_requests_Ok c rs Hq Hpl Hne) in H. injection H as <-.
    cbn. rewrite Hpl, <- (Forall2_length _ _ _ Hq). by repeat split.
  - pose proof (on_write_inv _ _ _ H) as (Hle & Hpl & _).
    destruct (queue_holds_on_write end_ c c' rs Hq H) as [Hq' _].
    rewrite (on_write_Ok end_ c rs Hq Hle) in H.
    split; [exact Hq'|]. split; [exact Hpl|]. by injection H as <-.
  - destruct (socket_ c) as [s|] eqn:Hs.
    + rewrite (close_Ok now c s Hs (wf_reqs_valid c Hwf)) in H.
      injection H as <-. cbn. split; [constructor | done].
    + unfold close in H. by rewrite Hs in H.
Qed.

(** X17.  Through any completed sequence of [add_request],
    [coalesce_requests], [on_write] and [close] calls on a well-formed,
    alias-free connection, the queue, the outbound buffer and the
    pending-responses counter are those of a model that knows requests
    only: [add_request] appends the request and moves nothing else,
    [coalesce_requests] appends the first payloads to the buffer and adds
    their command counts with wrap-around, [on_write] drops the covered
    requests with command count zero, empties the buffer and leaves the
    counter alone, [close] empties queue and buffer and sets the counter to
    zero.  Pointers, pooled entries and timers never show in these three. *)
Theorem calls_refine_model ms c c' rs :
  wf c = true →
  alias_free c →
  queue_holds c rs →
  calls ms c = Ok c' →
  queue_holds c'
    (model_queue (model_calls (coalesce_requests_enabled (cfg_ c)) ms
                    (mk_model rs (payload_ c) (cmds_ c))))
  ∧ payload_ c'
    = model_payload (model_calls (coalesce_requests_enabled (cfg_ c)) ms
                       (mk_model rs (payload_ c) (cmds_ c)))
  ∧ cmds_ c'
    = model_cmds (model_calls (coalesce_requests_enabled (cfg_ c)) ms
                    (mk_model rs (payload_ c) (cmds_ c))).
Proof.
  unfold calls. revert c rs.
  induction ms as [|m ms IH]; intros c rs Hwf Hfree Hq H.
  - cbn in H. injection H as <-. by cbn.
  - cbn [for_each] in H. apply bind_inv in H as (c1 & Hcall & H).
    destruct (call_keeps_invariants m c c1 Hwf Hfree Hcall) as [Hwf1 Hfree1].
    destruct (call_refines_model m c c1 rs Hwf Hfree Hq Hcall)
      as (Hq1 & Hp1 & Hn1 & Hcfg1).
    destruct (IH c1 _ Hwf1 Hfree1 Hq1 H) as (Hq' & Hp' & Hn').
    rewrite Hcfg1, Hp1, Hn1 in Hq', Hp', Hn'.
    cbn [model_calls foldl].
    by destruct (model_call (coalesce_requests_enabled (cfg_ c)) m
                   (mk_model rs (payload_ c) (cmds_ c))).
Qed.

Lemma calls_refine_model_witness :
  ∃ c', calls [CallAddRequest heavy; CallAddRequest subscribe;
               CallCoalesceRequests; CallOnWrite 3; CallAddRequest ping;
               CallClose 7; CallAddRequest get_set]
          one_queued_one_pooled = Ok c'
    ∧ queue_holds c' [get_set]
    ∧ payload_ c' = EmptyString
    ∧ cmds_ c' = 0.
Proof.
  eexists. split; [vm_compute; reflexivity|].
  apply (calls_refine_model
           [CallAddRequest heavy; CallAddRequest subscribe;
            CallCoalesceRequests; CallOnWrite 3; CallAddRequest ping;
            CallClose 7; CallAddRequest get_set]
           one_queued_one_pooled _ [get_set]).
  - vm_compute. reflexivity.
  - unfold alias_free. cbn. apply (bool_decide_unpack _). vm_compute.
    reflexivity.
  - repeat constructor.
  - vm_compute. reflexivity.
Defined.

(** The same calls up to the write: the counter wrapped around. *)
Lemma calls_refine_model_example :
  ∃ c', calls [CallAddRequest heavy; CallAddRequest subscribe;
               CallCoalesceRequests; CallOnWrite 3]
          one_queued_one_pooled = Ok c'
    ∧ cmds_ c' = 1
    ∧ model_queue
        (model_calls true
           [CallAddRequest heavy; CallAddRequest subscribe;
            CallCoalesceRequests; CallOnWrite 3]
           (mk_model [get_set] EmptyString 0))
      = [get_set; heavy].
Proof. eexists. by vm_compute. Qed.
